(** * Feasibility-analysis app: numeric extraction, charts, report, action handler

    A shallow embedding of [src/app.py]: the two regular expressions of
    [extract_numerical_data] run on a backtracking matcher that follows
    Python's [re] priorities (greedy and lazy repetition, optional groups,
    capture groups, leftmost non-overlapping [findall]); [create_charts],
    [create_docx], the download file name and the button handler are
    translated as functions over explicit data.

    Text is a list of characters; a character is a code point below 256. *)

From Stdlib Require Import Mergesort Ascii String List Bool Arith ZArith QArith Lia.
From Stdlib Require Import Permutation Sorted.
Import ListNotations.
Close Scope Q_scope.

Set Implicit Arguments.
Set Warnings "-register-all".

(** ** Text *)

Definition str := list ascii.

Definition s2l (s : string) : str := list_ascii_of_string s.

Definition code (c : ascii) : nat := nat_of_ascii c.

Definition in_range (lo hi : nat) (c : ascii) : bool :=
  (lo <=? code c) && (code c <=? hi).

Definition chr_is (n : nat) (c : ascii) : bool := code c =? n.

Definition NL : ascii := ascii_of_nat 10.
Definition SP : ascii := ascii_of_nat 32.
Definition COLON : ascii := ascii_of_nat 58.
Definition PERCENT : ascii := ascii_of_nat 37.
Definition DOT : ascii := ascii_of_nat 46.
Definition UNDERSCORE : ascii := ascii_of_nat 95.

(** ** Character classes of [re] on [str] patterns, code points 0..255 *)

(** [\d]: the decimal digits (category Nd); below 256 these are 0-9. *)
Definition is_digit (c : ascii) : bool := in_range 48 57 c.

(** [\w]: [str.isalnum] or underscore. *)
Definition is_word (c : ascii) : bool :=
  is_digit c || in_range 65 90 c || in_range 97 122 c || chr_is 95 c
  || chr_is 170 c || chr_is 178 c || chr_is 179 c || chr_is 181 c
  || chr_is 185 c || chr_is 186 c || in_range 188 190 c
  || in_range 192 214 c || in_range 216 246 c || in_range 248 255 c.

(** [\s]: [str.isspace]. *)
Definition is_space (c : ascii) : bool :=
  in_range 9 13 c || in_range 28 32 c || chr_is 133 c || chr_is 160 c.

(** [.] without DOTALL: anything but a line feed. *)
Definition is_any (c : ascii) : bool := negb (chr_is 10 c).

Definition is_colon (c : ascii) : bool := chr_is 58 c.
Definition is_percent (c : ascii) : bool := chr_is 37 c.
Definition is_dot (c : ascii) : bool := chr_is 46 c.

(** ** Regular expressions

    The fragment the two patterns of the source use: single-character
    classes, concatenation, a greedy optional group, repetition of one
    character class (greedy [c+], [c*]; lazy [c*?]) and capture groups. *)

Inductive regex : Type :=
| Eps : regex
| Chr (c : ascii -> bool)
| Cat (r1 r2 : regex)
| Opt (r : regex)
| Rep (greedy : bool) (min : nat) (c : ascii -> bool)
| Grp (n : nat) (r : regex).

(** [r{n}] *)
Fixpoint times (n : nat) (r : regex) : regex :=
  match n with
  | O => Eps
  | S O => r
  | S k => Cat r (times k r)
  end.

Definition groups := list (nat * str).

Fixpoint group (n : nat) (g : groups) : str :=
  match g with
  | [] => []
  | (i, s) :: g' => if i =? n then s else group n g'
  end.

(** ** The backtracking matcher *)

Section Matcher.
Variable A : Type.

(** Greedy repetition: take one more character first, give back on failure. *)
Fixpoint rep_greedy (c : ascii -> bool) (min : nat) (s : str)
         (k : str -> option A) : option A :=
  let stop := match min with O => k s | S _ => None end in
  match s with
  | a :: s' =>
      if c a then
        match rep_greedy c (pred min) s' k with
        | Some x => Some x
        | None => stop
        end
      else stop
  | [] => stop
  end.

(** Lazy repetition: try the rest first, take one more on failure. *)
Fixpoint rep_lazy (c : ascii -> bool) (min : nat) (s : str)
         (k : str -> option A) : option A :=
  let more (m : nat) :=
    match s with
    | a :: s' => if c a then rep_lazy c m s' k else None
    | [] => None
    end in
  match min with
  | O => match k s with
         | Some x => Some x
         | None => more O
         end
  | S m => more m
  end.

Fixpoint run (r : regex) (s : str) (g : groups)
         (k : str -> groups -> option A) : option A :=
  match r with
  | Eps => k s g
  | Chr c =>
      match s with
      | a :: s' => if c a then k s' g else None
      | [] => None
      end
  | Cat r1 r2 => run r1 s g (fun s' g' => run r2 s' g' k)
  | Opt r1 =>
      match run r1 s g k with
      | Some x => Some x
      | None => k s g
      end
  | Rep true min c => rep_greedy c min s (fun s' => k s' g)
  | Rep false min c => rep_lazy c min s (fun s' => k s' g)
  | Grp n r1 =>
      run r1 s g
          (fun s' g' => k s' ((n, firstn (length s - length s') s) :: g'))
  end.
End Matcher.

(** One attempt anchored at the head of [s]: the rest of the text after the
    match and the groups. *)
Definition match_at (r : regex) (s : str) : option (str * groups) :=
  run r s [] (fun s' g => Some (s', g)).

(** [re.findall]: leftmost matches, scanning on from the end of each match.
    [skip] characters are passed over before the next attempt.  (An empty
    match moves one character on; neither pattern of the source can match
    the empty string.) *)
Fixpoint scan (r : regex) (s : str) (skip : nat) : list groups :=
  let next (n : nat) :=
    match s with
    | [] => []
    | _ :: s' => scan r s' n
    end in
  match skip with
  | S n => next n
  | O =>
      match match_at r s with
      | Some (rest, g) => g :: next (length s - length rest - 1)
      | None => next O
      end
  end.

(** With two groups [findall] returns the pairs (group 1, group 2). *)
Definition findall (r : regex) (s : str) : list (str * str) :=
  map (fun g => (group 1 g, group 2 g)) (scan r s 0).

(** ** extract_numerical_data *)

Definition digits1 : regex := Rep true 1 is_digit.          (* \d+ *)
Definition number : regex :=                                 (* \d+(?:\.\d+)? *)
  Cat digits1 (Opt (Cat (Chr is_dot) digits1)).

(** [(\d{4}).*?(\d+(?:\.\d+)?)] *)
Definition line_re : regex :=
  Cat (Grp 1 (times 4 (Chr is_digit)))
      (Cat (Rep false 0 is_any) (Grp 2 number)).

(** [(\w+(?:\s+\w+)?)\s*:\s*(\d+(?:\.\d+)?)\s*%] *)
Definition pie_re : regex :=
  Cat (Grp 1 (Cat (Rep true 1 is_word)
                  (Opt (Cat (Rep true 1 is_space) (Rep true 1 is_word)))))
      (Cat (Rep true 0 is_space)
           (Cat (Chr is_colon)
                (Cat (Rep true 0 is_space)
                     (Cat (Grp 2 number)
                          (Cat (Rep true 0 is_space) (Chr is_percent)))))).

Definition extract_numerical_data (text : str)
  : list (str * str) * list (str * str) :=
  let line_data := findall line_re text in
  let pie_data := findall pie_re text in
  (line_data, pie_data).

(** ** Exceptions *)

Inductive exn : Type :=
| KeyError | IndexError | TypeError | AttributeError | ValueError
| RequestError.      (* the request failed or the body was not JSON *)

Inductive result (A : Type) : Type :=
| Ok (a : A)
| Raise (e : exn).
Arguments Ok {A} a.
Arguments Raise {A} e.

Definition rbind (A B : Type) (r : result A) (f : A -> result B) : result B :=
  match r with Ok a => f a | Raise e => Raise e end.

(** ** Numbers read from captured text

    [pd.to_numeric] and [float] on the strings the patterns capture: digits,
    or digits, a dot and digits.  Values are exact rationals (the number the
    decimal text denotes; binary rounding of [float], and its overflow to
    infinity on very long numbers, are not modelled). *)

Definition digit_val (c : ascii) : Z := Z.of_nat (code c) - 48.

Definition int_of_digits (s : str) : Z :=
  fold_left (fun acc c => 10 * acc + digit_val c)%Z s 0%Z.

(** The text before the first dot and the text after it. *)
Fixpoint split_dot (s : str) : str * str :=
  match s with
  | [] => ([], [])
  | a :: s' =>
      if is_dot a then ([], s')
      else let (i, f) := split_dot s' in (a :: i, f)
  end.

Definition to_int (s : str) : Z := int_of_digits s.

Definition to_float (s : str) : Q :=
  let (i, f) := split_dot s in
  Qred (inject_Z (int_of_digits i)
        + Qmake (int_of_digits f) (Pos.pow 10 (Pos.of_nat (length f))))%Q.

(** [pd.to_numeric] on a column of captured text, with the default
    [errors='raise']: text of digits only is read as a 64-bit integer, and
    raises ValueError (Integer out of range) when the number is larger than
    the largest unsigned 64-bit integer; text with a fraction is read as a
    float and never raises.  [float] on a captured text never raises. *)
Definition UINT64_MAX : Z := 18446744073709551615.

Definition integer_out_of_range (v : str) : bool :=
  forallb is_digit v && (UINT64_MAX <? int_of_digits v)%Z.

Definition to_numeric (A : Type) (read : str -> A) (column : list str)
  : result (list A) :=
  if existsb integer_out_of_range column then Raise ValueError
  else Ok (map read column).

(** ** create_charts *)

(** [DataFrame.sort_values('Year')] is called with the default [kind]
    ('quicksort'), which pandas documents as not stable: the rows come back
    as a rearrangement of the frame, ascending in the column.  The library
    routine is taken with that contract. *)
Definition year_le (a b : Z * Q) : Prop := (fst a <= fst b)%Z.

Record sort_values : Type := {
  sorted_by_year : list (Z * Q) -> list (Z * Q);
  sort_values_perm : forall df, Permutation df (sorted_by_year df);
  sort_values_sorted : forall df, StronglySorted year_le (sorted_by_year df)
}.

Inductive chart : Type :=
| Scatter (x : list Z) (y : list Q) (mode title xaxis_title yaxis_title : string)
| Pie (labels : list str) (values : list Q) (title : string).

Definition data_frame (line_data : list (str * str)) : list (Z * Q) :=
  map (fun p => (to_int (fst p), to_float (snd p))) line_data.

Definition create_charts (sv : sort_values)
           (line_data pie_data : list (str * str)) : result (list chart) :=
  let charts := [] in
  rbind
    match line_data with
    | [] => Ok charts
    | _ :: _ =>
        rbind (to_numeric to_int (map fst line_data)) (fun year =>
        rbind (to_numeric to_float (map snd line_data)) (fun value =>
        let df := combine year value in
        let df := sorted_by_year sv df in
        Ok (charts ++ [Scatter (map fst df) (map snd df) "lines+markers"
                               "Market Size Projection" "Year" "Market Size"])))
    end
    (fun charts =>
       match pie_data with
       | [] => Ok charts
       | _ :: _ =>
           let labels := map fst pie_data in
           let values := map (fun item => to_float (snd item)) pie_data in
           Ok (charts ++ [Pie labels values "Market Share"])
       end).

(** Insertion sort on the year, taking the rows from the right; [before a b]
    says whether the row being inserted stops in front of [b].  With [<=] a
    row stays in front of the later rows of its year: equal years keep their
    order of appearance. *)
Fixpoint insert_by (before : Z -> Z -> bool) (a : Z * Q) (l : list (Z * Q))
  : list (Z * Q) :=
  match l with
  | [] => [a]
  | b :: l' =>
      if before (fst a) (fst b) then a :: l else b :: insert_by before a l'
  end.

Definition stable_sort (l : list (Z * Q)) : list (Z * Q) :=
  fold_right (insert_by Z.leb) [] l.

(** The rows of one year, in order. *)
Definition rows_of_year (y : Z) (df : list (Z * Q)) : list (Z * Q) :=
  filter (fun p => (fst p =? y)%Z) df.

Definition line_chart (df : list (Z * Q)) : chart :=
  Scatter (map fst df) (map snd df) "lines+markers"
          "Market Size Projection" "Year" "Market Size".

Definition pie_chart (pie_data : list (str * str)) : chart :=
  Pie (map fst pie_data) (map (fun item => to_float (snd item)) pie_data)
      "Market Share".

(** No text of the two columns is an integer beyond 64 bits. *)
Definition columns_in_range (line_data : list (str * str)) : bool :=
  negb (existsb integer_out_of_range (map fst line_data))
  && negb (existsb integer_out_of_range (map snd line_data)).

(** ** numpy's quicksort on row numbers

    [sort_values] with the default [kind] sorts the year column with
    numpy's [argsort(kind='quicksort')].  Its portable routine for 64-bit
    integers, [aquicksort], works on the array [tosort] of row numbers with
    a stack of pending partitions: median-of-three partitioning while a part
    has more than seventeen elements, insertion sort of what is left, and
    heap sort once the depth limit is used up.  (Where numpy is built with
    vector instructions for the processor at hand another routine, no more
    stable, takes its place.)  The routine is transcribed here on lists: [a]
    is [tosort], [v] the keys by row number, and the pointers are positions
    in [a]. *)



























(** ** JSON values, as [response.json()] returns them *)

Inductive json : Type :=
| JNull
| JBool (b : bool)
| JNum (q : Q)
| JStr (s : str)
| JArr (items : list json)
| JObj (fields : list (str * json)).

Definition str_eqb (a b : str) : bool :=
  if list_eq_dec ascii_dec a b then true else false.

Fixpoint lookup (A : Type) (k : str) (d : list (str * A)) : option A :=
  match d with
  | [] => None
  | (k', v) :: d' => if str_eqb k' k then Some v else lookup k d'
  end.

(** ** create_docx *)

(** A document is the sequence of blocks added to it. *)
Inductive block : Type :=
| Heading (text : str) (level : nat)
| Paragraph (text : json) (style : option string).

Definition document := list block.

Definition add_heading (text : str) (level : nat) (doc : document) : document :=
  doc ++ [Heading text level].

Definition add_paragraph (text : json) (style : option string)
           (doc : document) : document :=
  doc ++ [Paragraph text style].

Definition disclaimer : str :=
  NL :: s2l "Note: This document was generated by an AI assistant. Verify the information with official sources for more accurate and up-to-date data.".

Definition location (city country : str) : str := city ++ s2l ", " ++ country.

(** [information] is the dict in insertion order; [sources] holds the values
    of the [link] fields as they came. *)
Definition create_docx (city country : str) (information : list (str * str))
           (sources : list json) : document :=
  let doc := [] in
  let doc := add_heading (s2l "Feasibility Analysis - " ++ location city country) 0 doc in
  let doc := add_heading (s2l "Location") 1 doc in
  let doc := add_paragraph (JStr (location city country)) None doc in
  let doc :=
    fold_left (fun doc item =>
                 let doc := add_heading (fst item) 2 doc in
                 add_paragraph (JStr (snd item)) None doc)
              information doc in
  let doc := add_heading (s2l "Sources") 1 doc in
  let doc :=
    fold_left (fun doc source => add_paragraph source (Some "List Bullet"%string) doc)
              sources doc in
  let doc := add_paragraph (JStr disclaimer) None doc in
  doc.

(** ** The download file name *)

(** [s.replace(old, new)] for a one-character [old]. *)
Fixpoint replace (old : ascii) (new : str) (s : str) : str :=
  match s with
  | [] => []
  | a :: s' =>
      if Ascii.eqb a old then new ++ replace old new s'
      else a :: replace old new s'
  end.

Definition file_name (city country : str) : str :=
  s2l "Feasibility_Analysis_" ++ replace SP [UNDERSCORE] city
      ++ s2l "_" ++ replace SP [UNDERSCORE] country ++ s2l ".docx".

(** ** The script: widgets, network, and the button handler *)

(** What a run shows and does, in order. *)
Inductive event : Type :=
| Warning (msg : string)
| Stop
| Post (url : string) (headers : list (string * option str)) (payload : json)
| Subheader (text : str)
| Markdown (text : str)
| Write (text : str)
| PlotlyChart (c : chart)
| DownloadButton (label : string) (data : document) (file_name : str)
                 (mime : string).

(** Effects of the handler: the events so far and a value or a raised
    exception; after an exception nothing more happens. *)
Definition M (A : Type) : Type := list event * result A.

Definition ret (A : Type) (a : A) : M A := ([], Ok a).

Definition bind (A B : Type) (m : M A) (f : A -> M B) : M B :=
  match m with
  | (ev, Ok a) => let (ev', r) := f a in (ev ++ ev', r)
  | (ev, Raise e) => (ev, Raise e)
  end.

Definition emit (e : event) : M unit := ([e], Ok tt).

Definition lift (A : Type) (r : result A) : M A := ([], r).

Notation "x <- m ;; f" := (bind m (fun x => f))
  (at level 61, m at next level, right associativity).
Notation "m ;;; f" := (bind m (fun _ => f))
  (at level 61, right associativity).

(** Everything outside the script: the secrets, the two services and the
    document library.  [respond] is [requests.post(...)] followed by
    [response.json()].  [docx_refuses] is python-docx at work on a report,
    while the blocks are added and the file is saved: it raises on text it
    cannot write (a link that is not a string, a control character), and the
    script has no say in that. *)
Record world : Type := {
  TOGETHER_API_KEY : option str;
  SERPER_API_KEY : option str;
  respond : string -> list (string * option str) -> json -> result json;
  docx_refuses : document -> option exn
}.

(** [str(x)] inside an f-string for a secret that may be [None]. *)
Definition fmt (k : option str) : str :=
  match k with Some s => s | None => s2l "None" end.

Definition post (w : world) (url : string) (headers : list (string * option str))
           (payload : json) : M json :=
  emit (Post url headers payload) ;;; lift (respond w url headers payload).

Definition search_payload (query : str) : json :=
  JObj [(s2l "q", JStr (query ++ s2l " city feasibility analysis statistics"))].

(** The search key goes into the header as it is ([None] when the secret is
    absent); the inference key goes through an f-string. *)
Definition search_headers (w : world) : list (string * option str) :=
  [("X-API-KEY"%string, SERPER_API_KEY w);
   ("Content-Type"%string, Some (s2l "application/json"))].

Definition search_information (w : world) (query : str) : M json :=
  let url := "https://google.serper.dev/search"%string in
  let payload := search_payload query in
  let headers := search_headers w in
  post w url headers payload.

Definition getitem (j : json) (k : str) : result json :=
  match j with
  | JObj d => match lookup k d with Some v => Ok v | None => Raise KeyError end
  | _ => Raise TypeError
  end.

Definition getitem0 (j : json) : result json :=
  match j with
  | JArr (x :: _) => Ok x
  | JArr [] => Raise IndexError
  | JObj _ => Raise KeyError
  | JStr (c :: _) => Ok (JStr [c])
  | JStr [] => Raise IndexError
  | _ => Raise TypeError
  end.

Fixpoint lstrip (s : str) : str :=
  match s with
  | a :: s' => if is_space a then lstrip s' else s
  | [] => []
  end.

Definition strip (s : str) : str := rev (lstrip (rev (lstrip s))).

Definition strip_method (j : json) : result str :=
  match j with
  | JStr s => Ok (strip s)
  | _ => Raise AttributeError
  end.

(** [response.json()['output']['choices'][0]['text'].strip()] *)
Definition response_text (response : json) : result str :=
  rbind (getitem response (s2l "output")) (fun output =>
  rbind (getitem output (s2l "choices")) (fun choices =>
  rbind (getitem0 choices) (fun choice =>
  rbind (getitem choice (s2l "text")) strip_method))).

Definition prompt (city country sector context : str) : str :=
  s2l "Context: " ++ context ++ [NL; NL] ++ s2l "City: " ++ city ++ [NL]
  ++ s2l "Country: " ++ country ++ [NL] ++ s2l "Sector: " ++ sector ++ [NL; NL]
  ++ s2l "Provide a detailed and extensive feasibility analysis on starting a business in the '"
  ++ sector ++ s2l "' sector in " ++ city ++ s2l ", " ++ country
  ++ s2l ". The information should be accurate, complete, and based on real data. Include statistics, relevant numerical data, market analysis, entry barriers, and any additional information that may be of interest. Make sure to cover multiple aspects of business feasibility."
  ++ [NL; NL]
  ++ s2l "Where possible, include numerical data that can be used to create charts. For example, you could provide market size projections over the next 5 years, or a breakdown of market share by competitors."
  ++ [NL; NL] ++ s2l "Feasibility analysis:".

Definition inference_payload (city country sector context : str) : json :=
  JObj [(s2l "model", JStr (s2l "mistralai/Mixtral-8x7B-Instruct-v0.1"));
        (s2l "prompt", JStr (prompt city country sector context));
        (s2l "max_tokens", JNum 4096);
        (s2l "temperature", JNum (2 # 10));
        (s2l "top_p", JNum (9 # 10));
        (s2l "top_k", JNum 50);
        (s2l "repetition_penalty", JNum (11 # 10));
        (s2l "stop", JArr [JStr (s2l "City:")])].

Definition inference_headers (w : world) : list (string * option str) :=
  [("Authorization"%string, Some (s2l "Bearer " ++ fmt (TOGETHER_API_KEY w)));
   ("Content-Type"%string, Some (s2l "application/json"))].

Definition generate_feasibility_analysis (w : world)
           (city country sector context : str) : M str :=
  let url := "https://api.together.xyz/inference"%string in
  let payload := inference_payload city country sector context in
  let headers := inference_headers w in
  response <- post w url headers payload ;;
  lift (response_text response).

(** [search_results.get("organic", [])] *)
Definition get_organic (search_results : json) : result json :=
  match search_results with
  | JObj d => match lookup (s2l "organic") d with
              | Some v => Ok v
              | None => Ok (JArr [])
              end
  | _ => Raise AttributeError
  end.

(** [for item in x] *)
Definition iterate (x : json) : result (list json) :=
  match x with
  | JArr items => Ok items
  | JStr s => Ok (map (fun c => JStr [c]) s)
  | JObj d => Ok (map (fun kv => JStr (fst kv)) d)
  | _ => Raise TypeError
  end.

(** [[item[key] for item in items]] *)
Fixpoint fields (key : str) (items : list json) : result (list json) :=
  match items with
  | [] => Ok []
  | item :: rest =>
      rbind (getitem item key) (fun v =>
      rbind (fields key rest) (fun vs => Ok (v :: vs)))
  end.

(** [sep.join(parts)] *)
Fixpoint join (sep : str) (parts : list json) : result str :=
  match parts with
  | [] => Ok []
  | JStr s :: [] => Ok s
  | JStr s :: rest => rbind (join sep rest) (fun t => Ok (s ++ sep ++ t))
  | _ :: _ => Raise TypeError
  end.

Definition context_of (search_results : json) : result str :=
  rbind (get_organic search_results) (fun organic =>
  rbind (iterate organic) (fun items =>
  rbind (fields (s2l "snippet") items) (join [NL]))).

Definition sources_of (search_results : json) : result (list json) :=
  rbind (get_organic search_results) (fun organic =>
  rbind (iterate organic) (fields (s2l "link"))).

Fixpoint emit_all (evs : list event) : M unit :=
  match evs with
  | [] => ret tt
  | e :: rest => emit e ;;; emit_all rest
  end.

(** [information[key] = value] on a dict kept in insertion order. *)
Fixpoint dict_set (A : Type) (k : str) (v : A) (d : list (str * A))
  : list (str * A) :=
  match d with
  | [] => [(k, v)]
  | (k', v') :: d' =>
      if str_eqb k' k then (k', v) :: d' else (k', v') :: dict_set k v d'
  end.

Definition docx_mime : string :=
  "application/vnd.openxmlformats-officedocument.wordprocessingml.document".

(** [create_docx(...)] and [doc.save(buffer)]: the report, unless the
    library raises on the way. *)
Definition saved (w : world) (doc : document) : result document :=
  match docx_refuses w doc with
  | Some e => Raise e
  | None => Ok doc
  end.

(** The body of [if city and country and selected_sector:]. *)
Definition analysis (sv : sort_values) (w : world)
           (city country selected_sector : str) : M unit :=
  let information := [] in
  let all_sources := [] in
  search_results <-
    search_information w (city ++ [SP] ++ country ++ [SP] ++ selected_sector) ;;
  context <- lift (context_of search_results) ;;
  sources <- lift (sources_of search_results) ;;
  data <- generate_feasibility_analysis w city country selected_sector context ;;
  let information := dict_set selected_sector data information in
  let all_sources := all_sources ++ sources in
  emit (Subheader (s2l "Feasibility analysis for entrepreneurship in the sector: "
                       ++ selected_sector)) ;;;
  emit (Markdown (s2l "**Location: " ++ city ++ s2l ", " ++ country ++ s2l "**")) ;;;
  emit (Write data) ;;;
  let (line_data, pie_data) := extract_numerical_data data in
  charts <- lift (create_charts sv line_data pie_data) ;;
  emit_all (map PlotlyChart charts) ;;;
  emit (Write (s2l "---")) ;;;
  doc <- lift (saved w (create_docx city country information all_sources)) ;;
  emit (DownloadButton "Download analysis as DOCX" doc (file_name city country)
                       docx_mime).

(** The values the widgets return in one run of the script. *)
Record inputs : Type := {
  city : str;
  country : str;
  sector_choice : str;      (* st.selectbox *)
  business_idea : str;      (* st.text_area, read only for the custom option *)
  button : bool             (* st.button("Get feasibility analysis") *)
}.

Definition custom_option : str := s2l "Describe your own entrepreneurship idea".

Definition truthy (s : str) : bool :=
  match s with [] => false | _ :: _ => true end.

(** The script from the widgets on (static rendering is not traced). *)
Definition script (sv : sort_values) (w : world) (i : inputs) : M unit :=
  let selected_sector := sector_choice i in
  let continue (selected_sector : str) : M unit :=
    if button i then
      if truthy (city i) && truthy (country i) && truthy selected_sector then
        analysis sv w (city i) (country i) selected_sector
      else
        emit (Warning "Please enter a city and country, and select a sector or describe your entrepreneurship idea.")
    else ret tt in
  if str_eqb selected_sector custom_option then
    if negb (truthy (business_idea i)) then
      emit (Warning "Please describe your entrepreneurship idea.") ;;; emit Stop
    else
      continue (s2l "Custom idea: " ++ business_idea i)
  else continue selected_sector.

Definition is_post (e : event) : bool :=
  match e with Post _ _ _ => true | _ => false end.

Definition network_calls (m : M unit) : nat :=
  length (filter is_post (fst m)).

(** ** What a pattern matches, without the search order

    [sem r s g s' g']: [r] can match a prefix of [s], leaving [s'], and turn
    the groups [g] into [g']. *)

Definition all (c : ascii -> bool) (w : str) : Prop :=
  Forall (fun a => c a = true) w.

Inductive sem : regex -> str -> groups -> str -> groups -> Prop :=
| sem_eps s g : sem Eps s g s g
| sem_chr c a s g : c a = true -> sem (Chr c) (a :: s) g s g
| sem_cat r1 r2 s g s1 g1 s2 g2 :
    sem r1 s g s1 g1 -> sem r2 s1 g1 s2 g2 -> sem (Cat r1 r2) s g s2 g2
| sem_opt_some r s g s' g' : sem r s g s' g' -> sem (Opt r) s g s' g'
| sem_opt_none r s g : sem (Opt r) s g s g
| sem_rep gr min c w s g :
    all c w -> min <= length w -> sem (Rep gr min c) (w ++ s) g s g
| sem_grp n r s g s' g' :
    sem r s g s' g' ->
    sem (Grp n r) s g s' ((n, firstn (length s - length s') s) :: g').

(** A match of [r] somewhere in the text. *)
Definition occurs (r : regex) (text : str) : Prop :=
  exists pre t rest g, text = pre ++ t /\ sem r t [] rest g.

(** Four digits. *)
Definition year_token (y : str) : Prop := length y = 4 /\ all is_digit y.

(** Digits, or digits, a dot and digits. *)
Definition decimal (v : str) : Prop :=
  exists i, all is_digit i /\ i <> [] /\
            (v = i \/ exists f, all is_digit f /\ f <> [] /\ v = i ++ DOT :: f).

(** The first character, if any, is not in the class. *)
Definition stops (c : ascii -> bool) (s : str) : Prop :=
  match s with [] => True | a :: _ => c a = false end.

(** The text does not go on with a dot and a digit. *)
Definition no_fraction (s : str) : Prop :=
  match s with
  | a :: b :: _ => is_dot a = true -> is_digit b = false
  | _ => True
  end.

(** [v] is a whole number token in front of [post]: the digits cannot be
    extended, and a number without fraction is not followed by one. *)
Definition number_ends (v post : str) : Prop :=
  stops is_digit post /\ (all is_digit v -> no_fraction post).

(** The year/value pattern in plain terms: somewhere in the text, four
    digits, then any characters other than a line feed, then a number. *)
Definition line_occurrence (text : str) : Prop :=
  exists pre y gap v post,
    text = pre ++ y ++ gap ++ v ++ post
    /\ year_token y /\ all is_any gap /\ decimal v.

Definition is_scatter (c : chart) : bool :=
  match c with Scatter _ _ _ _ _ _ => true | Pie _ _ _ => false end.

(** Reading a document back: the sector headings (level 2) and the bulleted
    items, in order. *)
Definition sector_headings (doc : document) : list str :=
  flat_map (fun b => match b with
                     | Heading text 2 => [text]
                     | _ => []
                     end) doc.

Definition bullets (doc : document) : list json :=
  flat_map (fun b => match b with
                     | Paragraph text (Some "List Bullet"%string) => [text]
                     | _ => []
                     end) doc.

Definition sector_section (item : str * str) : list block :=
  [Heading (fst item) 2; Paragraph (JStr (snd item)) None].

Definition bullet (source : json) : block :=
  Paragraph source (Some "List Bullet"%string).

Definition contains (sub s : str) : Prop :=
  exists pre post, s = pre ++ sub ++ post.

Definition underscore_for_space (c : ascii) : ascii :=
  if Ascii.eqb c SP then UNDERSCORE else c.

Definition search_url : string := "https://google.serper.dev/search".
Definition inference_url : string := "https://api.together.xyz/inference".

(** What a trace shows besides the requests. *)
Definition shown (m : M unit) : list event :=
  filter (fun e => negb (is_post e)) (fst m).

(** The text of the first [st.write] of a run: the narrative. *)
Fixpoint first_write (evs : list event) : option str :=
  match evs with
  | [] => None
  | Write text :: _ => Some text
  | _ :: rest => first_write rest
  end.

Definition narrative_shown (m : M unit) : option str := first_write (fst m).

Definition charts_shown (m : M unit) : list chart :=
  flat_map (fun e => match e with PlotlyChart c => [c] | _ => [] end) (fst m).

Definition missing (s : str) : Prop := s = [].

(** Sample surroundings for the handler: a search service that answers with
    the given body and an inference service that answers with the given
    body, whatever is asked. *)
Definition sample_world (keys : option str) (search_body inference_body : json)
  : world :=
  {| TOGETHER_API_KEY := keys;
     SERPER_API_KEY := keys;
     respond := fun url _ _ =>
                  if String.eqb url search_url then Ok search_body
                  else Ok inference_body;
     docx_refuses := fun _ => None |}.

Definition inference_body_with (text : str) : json :=
  JObj [(s2l "output",
         JObj [(s2l "choices", JArr [JObj [(s2l "text", JStr text)]])])].

(** One word, or two words with white space between them. *)
Definition one_word (w : str) : Prop := all is_word w /\ w <> [].

Definition two_words (lbl : str) : Prop :=
  exists w1 sp w2,
    lbl = w1 ++ sp ++ w2 /\ one_word w1 /\ all is_space sp /\ sp <> []
    /\ one_word w2.

Definition label (lbl : str) : Prop := one_word lbl \/ two_words lbl.

(** What may stand in front of a label for the scan to take the label as it
    is: in front of two words, no word character directly; in front of one
    word, no word character directly or across white space. *)
Definition left_boundary (pre lbl : str) : Prop :=
  (two_words lbl -> stops is_word (rev pre))
  /\ (one_word lbl -> stops is_word (lstrip (rev pre))).

(** "<label>: <number>%" with any white space around the colon and in front
    of the percent sign. *)
Definition share_text (lbl sp1 sp2 v sp3 : str) : str :=
  lbl ++ sp1 ++ COLON :: sp2 ++ v ++ sp3 ++ [PERCENT].

(** [if line_data:] on a list. *)
Definition truthy_list (A : Type) (l : list A) : bool :=
  match l with [] => false | _ :: _ => true end.

(** The headings of one level, in order. *)
Definition headings_of_level (n : nat) (doc : document) : list str :=
  flat_map (fun b => match b with
                     | Heading text level => if level =? n then [text] else []
                     | Paragraph _ _ => []
                     end) doc.

(** An inference body with the given [choices]. *)
Definition inference_body (choices : json) : json :=
  JObj [(s2l "output", JObj [(s2l "choices", choices)])].

(** Texts joined with a separator. *)
Fixpoint concat_with (sep : str) (parts : list str) : str :=
  match parts with
  | [] => []
  | [s] => s
  | s :: rest => s ++ sep ++ concat_with sep rest
  end.

Definition is_warning (e : event) : bool :=
  match e with Warning _ => true | _ => false end.

Definition warnings (m : M unit) : list event := filter is_warning (fst m).

(** The services a run calls, in order. *)
Definition request_urls (m : M unit) : list string :=
  flat_map (fun e => match e with Post url _ _ => [url] | _ => [] end) (fst m).

(** The sector the handler works with: the choice of the select box, or the
    described idea behind its prefix. *)
Definition effective_sector (i : inputs) : str :=
  if str_eqb (sector_choice i) custom_option
  then s2l "Custom idea: " ++ business_idea i
  else sector_choice i.

Definition search_query (i : inputs) : str :=
  city i ++ [SP] ++ country i ++ [SP] ++ effective_sector i.

(** The trace of an action up to the narrative, and of a completed one. *)
Definition narrative_trace (w : world) (c k sel context data : str) : list event :=
  [Post search_url (search_headers w)
        (search_payload (c ++ [SP] ++ k ++ [SP] ++ sel));
   Post inference_url (inference_headers w) (inference_payload c k sel context);
   Subheader (s2l "Feasibility analysis for entrepreneurship in the sector: " ++ sel);
   Markdown (s2l "**Location: " ++ c ++ s2l ", " ++ k ++ s2l "**");
   Write data].

Definition full_trace (w : world) (c k sel context data : str)
           (charts : list chart) (sources : list json) : list event :=
  narrative_trace w c k sel context data
    ++ map PlotlyChart charts
    ++ [Write (s2l "---");
        DownloadButton "Download analysis as DOCX"
                       (create_docx c k [(sel, data)] sources)
                       (file_name c k) docx_mime].

(** What follows the narrative in the trace of an action, and how the action
    ends: nothing when the charts fail; the charts and the rule when the
    document library refuses the report; and these with the download else. *)
Definition after_narrative (sv : sort_values) (w : world) (c k sel data : str)
           (sources : list json) : M unit :=
  match create_charts sv (fst (extract_numerical_data data))
                      (snd (extract_numerical_data data)) with
  | Raise e => ([], Raise e)
  | Ok charts =>
      match docx_refuses w (create_docx c k [(sel, data)] sources) with
      | Some e => (map PlotlyChart charts ++ [Write (s2l "---")], Raise e)
      | None =>
          (map PlotlyChart charts
             ++ [Write (s2l "---");
                 DownloadButton "Download analysis as DOCX"
                                (create_docx c k [(sel, data)] sources)
                                (file_name c k) docx_mime],
           Ok tt)
      end
  end.


(** The charts of a call that returns: the line chart if there is a series,
    then the pie chart if there are shares. *)
Definition charts_of (sv : sort_values) (line_data pie_data : list (str * str))
  : list chart :=
  (if truthy_list line_data
   then [line_chart (sorted_by_year sv (data_frame line_data))] else [])
  ++ (if truthy_list pie_data then [pie_chart pie_data] else []).

(** The charts [create_charts] returns for the extraction of a narrative;
    none when it raises. *)
Definition charts_from (sv : sort_values) (text : str) : list chart :=
  match create_charts sv (fst (extract_numerical_data text))
                      (snd (extract_numerical_data text)) with
  | Ok charts => charts
  | Raise _ => []
  end.

Definition not_digit (a : ascii) : bool := negb (is_digit a).

(** The year/value pattern in plain terms at the head of a text. *)
Definition line_match_here (t : str) : Prop :=
  exists y gap v rest,
    t = y ++ gap ++ v ++ rest /\ year_token y /\ all is_any gap /\ decimal v.

Definition two_years_text : str :=
  s2l "In 2024 revenue reached 5 million, in 2025 it was 7".



(* ================================================================== *)
(** * Properties *)

(** ** The matcher against the declarative meaning *)

Section MatcherFacts.
Variable A : Type.

Lemma rep_greedy_sound c : forall s min (k : str -> option A) x,
    rep_greedy c min s k = Some x ->
    exists w s', s = w ++ s' /\ all c w /\ min <= length w /\ k s' = Some x.
Proof.
  induction s as [|a s IH]; intros min k x H; simpl in H.
  - destruct min; [|discriminate]. exists [], []. repeat split; auto. constructor.
  - destruct (c a) eqn:Ca.
    + destruct (rep_greedy c (pred min) s k) eqn:E.
      * inversion H; subst. apply IH in E.
        destruct E as (w & s' & -> & Hw & Hm & Hk).
        exists (a :: w), s'. repeat split; auto.
        -- constructor; auto.
        -- simpl. lia.
      * destruct min; [|discriminate].
        exists [], (a :: s). repeat split; auto. constructor.
    + destruct min; [|discriminate].
      exists [], (a :: s). repeat split; auto. constructor.
Qed.

Lemma rep_lazy_sound c : forall s min (k : str -> option A) x,
    rep_lazy c min s k = Some x ->
    exists w s', s = w ++ s' /\ all c w /\ min <= length w /\ k s' = Some x.
Proof.
  induction s as [|a s IH]; intros min k x H; simpl in H.
  - destruct min; [|discriminate].
    destruct (k []) eqn:E; [|discriminate]. inversion H; subst.
    exists [], []. repeat split; auto. constructor.
  - destruct min.
    + destruct (k (a :: s)) eqn:E.
      * inversion H; subst. exists [], (a :: s). repeat split; auto. constructor.
      * destruct (c a) eqn:Ca; [|discriminate]. apply IH in H.
        destruct H as (w & s' & -> & Hw & Hm & Hk).
        exists (a :: w), s'. repeat split; auto.
        -- constructor; auto.
        -- simpl. lia.
    + destruct (c a) eqn:Ca; [|discriminate]. apply IH in H.
      destruct H as (w & s' & -> & Hw & Hm & Hk).
      exists (a :: w), s'. repeat split; auto.
      -- constructor; auto.
      -- simpl. lia.
Qed.

Lemma run_sound r : forall s g (k : str -> groups -> option A) x,
    run r s g k = Some x ->
    exists s' g', sem r s g s' g' /\ k s' g' = Some x.
Proof.
  induction r as [|c|r1 IH1 r2 IH2|r IH|gr min c|n r IH]; intros s g k x H; simpl in H.
  - exists s, g. split; [constructor|assumption].
  - destruct s as [|a s]; [discriminate|].
    destruct (c a) eqn:Ca; [|discriminate].
    exists s, g. split; [constructor; assumption|assumption].
  - apply IH1 in H. destruct H as (s1 & g1 & H1 & H).
    apply IH2 in H. destruct H as (s2 & g2 & H2 & H).
    exists s2, g2. split; [econstructor; eassumption|assumption].
  - destruct (run r s g k) eqn:E.
    + inversion H; subst. apply IH in E. destruct E as (s' & g' & H1 & H2).
      exists s', g'. split; [apply sem_opt_some; assumption|assumption].
    + exists s, g. split; [apply sem_opt_none|assumption].
  - destruct gr.
    + apply rep_greedy_sound in H. destruct H as (w & s' & -> & Hw & Hm & Hk).
      exists s', g. split; [constructor; assumption|assumption].
    + apply rep_lazy_sound in H. destruct H as (w & s' & -> & Hw & Hm & Hk).
      exists s', g. split; [constructor; assumption|assumption].
  - apply IH in H. destruct H as (s' & g' & H1 & H2).
    eexists _, _. split; [constructor; eassumption|exact H2].
Qed.

Lemma rep_greedy_complete c (k : str -> option A) s' :
  k s' <> None ->
  forall w min, all c w -> min <= length w ->
                rep_greedy c min (w ++ s') k <> None.
Proof.
  intros Hk. induction w as [|a w IH]; intros min Hw Hm; simpl in *.
  - assert (min = 0) by lia. subst.
    destruct s' as [|a s]; simpl; auto.
    destruct (c a); auto.
    destruct (rep_greedy c 0 s k); [discriminate|assumption].
  - inversion Hw; subst. rewrite H1.
    specialize (IH (pred min) H2 ltac:(lia)).
    destruct (rep_greedy c (pred min) (w ++ s') k); [discriminate|contradiction].
Qed.

Lemma rep_lazy_complete c (k : str -> option A) s' :
  k s' <> None ->
  forall w min, all c w -> min <= length w ->
                rep_lazy c min (w ++ s') k <> None.
Proof.
  intros Hk. induction w as [|a w IH]; intros min Hw Hm; simpl in *.
  - assert (min = 0) by lia. subst.
    destruct s' as [|a s]; simpl.
    + destruct (k []); [discriminate|contradiction].
    + destruct (k (a :: s)); [discriminate|contradiction].
  - inversion Hw; subst. rewrite H1. destruct min.
    + destruct (k (a :: w ++ s')); [discriminate|].
      apply IH; [assumption|lia].
    + apply IH; [assumption|lia].
Qed.

Lemma run_complete r s g s' g' :
  sem r s g s' g' ->
  forall k : str -> groups -> option A,
    k s' g' <> None -> run r s g k <> None.
Proof.
  induction 1; intros k Hk; simpl.
  - assumption.
  - rewrite H. assumption.
  - apply IHsem1. apply IHsem2. assumption.
  - specialize (IHsem k Hk). destruct (run r s g k); [discriminate|contradiction].
  - destruct (run r s g k); [discriminate|assumption].
  - destruct gr.
    + apply rep_greedy_complete; assumption.
    + apply rep_lazy_complete; assumption.
  - apply IHsem. assumption.
Qed.
End MatcherFacts.

Lemma sem_suffix r s g s' g' : sem r s g s' g' -> exists w, s = w ++ s'.
Proof.
  induction 1.
  - exists []; reflexivity.
  - exists [a]; reflexivity.
  - destruct IHsem1 as [w1 ->]. destruct IHsem2 as [w2 ->].
    exists (w1 ++ w2). rewrite app_assoc. reflexivity.
  - assumption.
  - exists []; reflexivity.
  - exists w; reflexivity.
  - assumption.
Qed.

Lemma match_at_sound r s rest g :
  match_at r s = Some (rest, g) -> sem r s [] rest g.
Proof.
  intros H. apply run_sound in H. destruct H as (s' & g' & Hs & Hk).
  inversion Hk; subst. assumption.
Qed.

Lemma match_at_complete r s rest g :
  sem r s [] rest g -> match_at r s <> None.
Proof.
  intros H. unfold match_at. eapply run_complete; [eassumption|discriminate].
Qed.

(** ** Inversion of the declarative meaning *)

Lemma firstn_app_len (w s : str) : firstn (length (w ++ s) - length s) (w ++ s) = w.
Proof.
  rewrite length_app. replace (length w + length s - length s) with (length w) by lia.
  rewrite firstn_app, Nat.sub_diag, firstn_all. simpl. apply app_nil_r.
Qed.

Lemma sem_cat_inv r1 r2 s g s2 g2 :
  sem (Cat r1 r2) s g s2 g2 ->
  exists s1 g1, sem r1 s g s1 g1 /\ sem r2 s1 g1 s2 g2.
Proof. inversion 1; subst; eauto. Qed.

Lemma sem_chr_inv c s g s' g' :
  sem (Chr c) s g s' g' -> g' = g /\ exists a, s = a :: s' /\ c a = true.
Proof. inversion 1; subst; eauto. Qed.

Lemma sem_rep_inv gr min c s g s' g' :
  sem (Rep gr min c) s g s' g' ->
  g' = g /\ exists w, s = w ++ s' /\ all c w /\ min <= length w.
Proof. inversion 1; subst; eauto. Qed.

Lemma sem_opt_inv r s g s' g' :
  sem (Opt r) s g s' g' -> sem r s g s' g' \/ (s' = s /\ g' = g).
Proof. inversion 1; subst; auto. Qed.

Lemma sem_grp_inv n r s g s' g' :
  sem (Grp n r) s g s' g' ->
  exists g1 w, sem r s g s' g1 /\ s = w ++ s' /\ g' = (n, w) :: g1.
Proof.
  intros H. inversion H as [| | | | | |n0 r0 s0 g0 s0' g1 Hs]; subst.
  destruct (sem_suffix Hs) as [w ->].
  exists g1, w. rewrite firstn_app_len. auto.
Qed.

Lemma sem_grp_intro n r w s' g g1 :
  sem r (w ++ s') g s' g1 -> sem (Grp n r) (w ++ s') g s' ((n, w) :: g1).
Proof.
  intros H. apply (sem_grp n) in H. rewrite firstn_app_len in H. exact H.
Qed.

Lemma sem_number_inv s g s' g' :
  sem number s g s' g' -> g' = g /\ exists v, s = v ++ s' /\ decimal v.
Proof.
  unfold number, digits1. intros H.
  apply sem_cat_inv in H. destruct H as (s1 & g1 & H1 & H2).
  apply sem_rep_inv in H1. destruct H1 as (-> & i & -> & Hi & Hl).
  assert (Hne : i <> []) by (destruct i; simpl in Hl; [lia|discriminate]).
  apply sem_opt_inv in H2. destruct H2 as [H2 | [-> ->]].
  - apply sem_cat_inv in H2. destruct H2 as (s2 & g2 & H2 & H3).
    apply sem_chr_inv in H2. destruct H2 as (-> & a & -> & Ha).
    apply sem_rep_inv in H3. destruct H3 as (-> & f & -> & Hf & Hlf).
    split; [reflexivity|]. exists (i ++ DOT :: f). split.
    + assert (a = DOT) as ->.
      { unfold is_dot, chr_is, code in Ha. apply Nat.eqb_eq in Ha.
        rewrite <- (ascii_nat_embedding a), Ha. reflexivity. }
      rewrite <- app_assoc. reflexivity.
    + exists i. repeat split; auto. right. exists f. repeat split; auto.
      destruct f; simpl in Hlf; [lia|discriminate].
  - split; [reflexivity|]. exists i. split; [reflexivity|].
    exists i. repeat split; auto.
Qed.

Lemma sem_number_intro v s' g : decimal v -> sem number (v ++ s') g s' g.
Proof.
  intros (i & Hi & Hne & [-> | (f & Hf & Hfne & ->)]); unfold number, digits1.
  - eapply sem_cat.
    + apply sem_rep; [exact Hi|]. destruct i; [contradiction|simpl; lia].
    + apply sem_opt_none.
  - rewrite <- app_assoc. eapply sem_cat.
    + apply sem_rep; [exact Hi|]. destruct i; [contradiction|simpl; lia].
    + apply sem_opt_some. simpl. eapply sem_cat.
      * apply sem_chr. reflexivity.
      * apply sem_rep; [exact Hf|]. destruct f; [contradiction|simpl; lia].
Qed.

(** ** findall *)

Lemma scan_skip r : forall n s, n <= length s -> scan r s n = scan r (skipn n s) 0.
Proof.
  induction n as [|n IH]; intros s Hn; [reflexivity|].
  destruct s as [|a s]; simpl in Hn; [lia|].
  simpl. apply IH. lia.
Qed.

Lemma scan_eq r s :
  scan r s 0 =
  match match_at r s with
  | Some (rest, g) =>
      g :: match s with
           | [] => []
           | _ :: s' => scan r s' (length s - length rest - 1)
           end
  | None => match s with [] => [] | _ :: s' => scan r s' 0 end
  end.
Proof. destruct s; reflexivity. Qed.

Lemma scan_some r w rest g :
  w <> [] -> match_at r (w ++ rest) = Some (rest, g) ->
  scan r (w ++ rest) 0 = g :: scan r rest 0.
Proof.
  intros Hw H. destruct w as [|a w]; [contradiction|].
  rewrite scan_eq, H. f_equal. change ((a :: w) ++ rest) with (a :: w ++ rest).
  cbv iota.
  assert (E : length (a :: w ++ rest) - length rest - 1 = length w)
    by (change (length (a :: w ++ rest)) with (S (length (w ++ rest)));
        rewrite length_app; lia).
  rewrite E, scan_skip by (rewrite length_app; lia).
  rewrite skipn_app, Nat.sub_diag, skipn_all. reflexivity.
Qed.

Lemma scan_none r a s :
  match_at r (a :: s) = None -> scan r (a :: s) 0 = scan r s 0.
Proof. intros H. simpl. rewrite H. reflexivity. Qed.

Lemma scan_in r g : forall s n,
    In g (scan r s n) ->
    exists pre t rest, s = pre ++ t /\ match_at r t = Some (rest, g).
Proof.
  induction s as [|a s IH]; intros n H.
  - destruct n; simpl in H; [|contradiction].
    destruct (match_at r []) as [[rest g0]|] eqn:E; [|contradiction].
    destruct H as [<- | []]. exists [], [], rest. auto.
  - destruct n; simpl in H.
    + destruct (match_at r (a :: s)) as [[rest g0]|] eqn:E.
      * destruct H as [<- | H].
        -- exists [], (a :: s), rest. auto.
        -- apply IH in H. destruct H as (pre & t & rest' & -> & H).
           exists (a :: pre), t, rest'. auto.
      * apply IH in H. destruct H as (pre & t & rest' & -> & H).
        exists (a :: pre), t, rest'. auto.
    + apply IH in H. destruct H as (pre & t & rest' & -> & H).
      exists (a :: pre), t, rest'. auto.
Qed.

Lemma scan_nil_iff r : forall s,
    scan r s 0 = [] <-> (forall pre t, s = pre ++ t -> match_at r t = None).
Proof.
  induction s as [|a s IH]; split.
  - intros H pre t E. symmetry in E. apply app_eq_nil in E. destruct E as [-> ->].
    simpl in H. destruct (match_at r []) as [[? ?]|]; [discriminate|reflexivity].
  - intros H. simpl. rewrite (H [] [] eq_refl). reflexivity.
  - intros H pre t E. simpl in H.
    destruct (match_at r (a :: s)) as [[? ?]|] eqn:M; [discriminate|].
    destruct pre as [|b pre]; simpl in E.
    + subst t. exact M.
    + inversion E; subst. apply (proj1 IH H pre t eq_refl).
  - intros H. simpl. rewrite (H [] (a :: s) eq_refl).
    apply IH. intros pre t E. apply (H (a :: pre) t). rewrite E. reflexivity.
Qed.

Lemma findall_nil_iff r text : findall r text = [] <-> ~ occurs r text.
Proof.
  unfold findall, occurs. split.
  - intros H (pre & t & rest & g & E & S).
    apply map_eq_nil in H. rewrite scan_nil_iff in H.
    apply (match_at_complete S). eapply H. eassumption.
  - intros H. replace (scan r text 0) with (@nil groups); [reflexivity|].
    symmetry. apply scan_nil_iff. intros pre t E.
    destruct (match_at r t) as [[rest g]|] eqn:M; [|reflexivity].
    exfalso. apply H. exists pre, t, rest, g. split; [assumption|].
    apply match_at_sound. assumption.
Qed.

(** ** The search order on the shapes the patterns meet *)

Section FirstChoice.
Variable A : Type.

(** A greedy repetition in front of a character outside the class takes
    the whole run when the rest then succeeds. *)
Lemma rep_greedy_max c (k : str -> option A) s' x :
  stops c s' -> k s' = Some x ->
  forall w min, all c w -> min <= length w ->
                rep_greedy c min (w ++ s') k = Some x.
Proof.
  intros Hs Hk. induction w as [|a w IH]; intros min Hw Hm; simpl in *.
  - assert (min = 0) by lia. subst.
    destruct s' as [|a s]; simpl; auto.
    simpl in Hs. rewrite Hs. assumption.
  - inversion Hw; subst. rewrite H1.
    rewrite (IH (pred min) H2 ltac:(lia)). reflexivity.
Qed.

Lemma rep_greedy_stops c (k : str -> option A) s min :
  stops c s -> rep_greedy c (S min) s k = None.
Proof.
  destruct s as [|a s]; simpl; intros H; [reflexivity|]. rewrite H. reflexivity.
Qed.

(** A lazy repetition walks over characters on which the rest fails. *)
Lemma rep_lazy_gap c (k : str -> option A) s' :
  forall gap,
    Forall (fun a => c a = true /\ forall t, k (a :: t) = None) gap ->
    rep_lazy c 0 (gap ++ s') k = rep_lazy c 0 s' k.
Proof.
  induction gap as [|a gap IH]; intros H; [reflexivity|].
  inversion H as [|? ? [Ca Ka] Hg]; subst.
  simpl. rewrite Ka, Ca. apply IH. assumption.
Qed.

Lemma rep_lazy_now c (k : str -> option A) s x :
  k s = Some x -> rep_lazy c 0 s k = Some x.
Proof. intros H. destruct s; simpl; rewrite H; reflexivity. Qed.

Lemma run_number_stops s g (k : str -> groups -> option A) :
  stops is_digit s -> run number s g k = None.
Proof. intros H. simpl. apply rep_greedy_stops. assumption. Qed.

Lemma run_number_int i post g (k : str -> groups -> option A) x :
  all is_digit i -> i <> [] -> stops is_digit post -> no_fraction post ->
  k post g = Some x -> run number (i ++ post) g k = Some x.
Proof.
  intros Hi Hne Hs Hn Hk. simpl.
  apply rep_greedy_max; auto.
  - destruct post as [|a [|b post]]; simpl.
    + assumption.
    + destruct (is_dot a); assumption.
    + simpl in Hn. destruct (is_dot a) eqn:Da; [|assumption].
      rewrite (Hn eq_refl). assumption.
  - destruct i; [contradiction|simpl; lia].
Qed.

Lemma run_number_frac i f post g (k : str -> groups -> option A) x :
  all is_digit i -> i <> [] -> all is_digit f -> f <> [] ->
  stops is_digit post -> k post g = Some x ->
  run number (i ++ DOT :: f ++ post) g k = Some x.
Proof.
  intros Hi Hne Hf Hfne Hs Hk. simpl.
  apply rep_greedy_max; auto.
  - reflexivity.
  - simpl. erewrite rep_greedy_max; eauto.
    destruct f; [contradiction|simpl; lia].
  - destruct i; [contradiction|simpl; lia].
Qed.

(** The number token in front of [post], whichever of the two shapes. *)
Lemma run_number v post g (k : str -> groups -> option A) x :
  decimal v -> number_ends v post ->
  k post g = Some x -> run number (v ++ post) g k = Some x.
Proof.
  intros (i & Hi & Hne & [-> | (f & Hf & Hfne & ->)]) [Hs Hn] Hk.
  - apply run_number_int; auto.
  - rewrite <- app_assoc.
    change ((DOT :: f) ++ post) with (DOT :: f ++ post).
    apply run_number_frac; auto.
Qed.
End FirstChoice.

Lemma year_token_inv y :
  year_token y ->
  exists a b c d, y = [a; b; c; d] /\ is_digit a = true /\ is_digit b = true
                  /\ is_digit c = true /\ is_digit d = true.
Proof.
  intros [Hl Hd].
  destruct y as [|a [|b [|c [|d [|e y]]]]]; try discriminate.
  inversion Hd as [|? ? Ha Hd1]; subst. inversion Hd1 as [|? ? Hb Hd2]; subst.
  inversion Hd2 as [|? ? Hc Hd3]; subst. inversion Hd3 as [|? ? Hdd Hd4]; subst.
  exists a, b, c, d. auto.
Qed.

(** The year/value pattern at the head of the text: four digits, a gap
    without digit or line feed, a number token in front of [post]. *)
Lemma line_match_at y gap v post :
  year_token y ->
  Forall (fun a => is_any a = true /\ is_digit a = false) gap ->
  decimal v -> number_ends v post ->
  match_at line_re (y ++ gap ++ v ++ post) = Some (post, [(2, v); (1, y)]).
Proof.
  intros Hy Hg Hv He.
  destruct (year_token_inv Hy) as (a & b & c & d & -> & Ha & Hb & Hc & Hd).
  unfold match_at, line_re. cbn [run times app]. rewrite Ha, Hb, Hc, Hd.
  rewrite rep_lazy_gap.
  - apply rep_lazy_now.
    erewrite run_number; eauto.
    f_equal. f_equal. f_equal.
    + f_equal. apply firstn_app_len.
    + f_equal. f_equal.
      change (a :: b :: c :: d :: gap ++ v ++ post)
        with ([a; b; c; d] ++ (gap ++ v ++ post)).
      apply firstn_app_len.
  - eapply Forall_impl; [|exact Hg]. intros e [He1 He2]. split; [assumption|].
    intros t. apply run_number_stops. exact He2.
Qed.

Lemma findall_some r w rest g :
  w <> [] -> match_at r (w ++ rest) = Some (rest, g) ->
  findall r (w ++ rest) = (group 1 g, group 2 g) :: findall r rest.
Proof.
  intros Hw H. unfold findall. rewrite (scan_some r Hw H). reflexivity.
Qed.

Lemma findall_none r a s :
  match_at r (a :: s) = None -> findall r (a :: s) = findall r s.
Proof. intros H. unfold findall. rewrite (scan_none _ _ _ H). reflexivity. Qed.

Lemma findall_in r y v text :
  In (y, v) (findall r text) ->
  exists pre t rest g,
    text = pre ++ t /\ match_at r t = Some (rest, g)
    /\ y = group 1 g /\ v = group 2 g.
Proof.
  unfold findall. intros H. apply in_map_iff in H.
  destruct H as (g & E & H). inversion E; subst.
  apply scan_in in H. destruct H as (pre & t & rest & -> & H).
  exists pre, t, rest, g. auto.
Qed.

(** ** The year/value pattern *)

Lemma sem_line_inv t rest g :
  sem line_re t [] rest g ->
  exists y gap v,
    t = y ++ gap ++ v ++ rest /\ year_token y /\ all is_any gap /\ decimal v
    /\ g = [(2, v); (1, y)].
Proof.
  unfold line_re. intros H.
  apply sem_cat_inv in H. destruct H as (s1 & g1 & H1 & H).
  apply sem_grp_inv in H1. destruct H1 as (g0 & y & H1 & -> & ->).
  cbn [times] in H1.
  apply sem_cat_inv in H1. destruct H1 as (t1 & h1 & Ha & H1).
  apply sem_cat_inv in H1. destruct H1 as (t2 & h2 & Hb & H1).
  apply sem_cat_inv in H1. destruct H1 as (t3 & h3 & Hc & Hd).
  apply sem_chr_inv in Ha. destruct Ha as (-> & a & Ea & Ha).
  apply sem_chr_inv in Hb. destruct Hb as (-> & b & -> & Hb).
  apply sem_chr_inv in Hc. destruct Hc as (-> & c & -> & Hc).
  apply sem_chr_inv in Hd. destruct Hd as (-> & d & -> & Hd).
  assert (y = [a; b; c; d]) as ->.
  { change (a :: b :: c :: d :: s1) with ([a; b; c; d] ++ s1) in Ea.
    apply app_inv_tail in Ea. assumption. }
  apply sem_cat_inv in H. destruct H as (s2 & g2 & Hgap & H).
  apply sem_rep_inv in Hgap. destruct Hgap as (-> & gap & -> & Hgap & _).
  apply sem_grp_inv in H. destruct H as (g3 & v & H & -> & ->).
  apply sem_number_inv in H. destruct H as (-> & v' & E & Hv).
  apply app_inv_tail in E. subst v'.
  exists [a; b; c; d], gap, v. repeat split; auto.
  repeat constructor; assumption.
Qed.

Lemma sem_line_intro y gap v rest :
  year_token y -> all is_any gap -> decimal v ->
  sem line_re (y ++ gap ++ v ++ rest) [] rest [(2, v); (1, y)].
Proof.
  intros Hy Hg Hv.
  destruct (year_token_inv Hy) as (a & b & c & d & E & Ha & Hb & Hc & Hd).
  unfold line_re. eapply sem_cat.
  - apply sem_grp_intro. subst y. cbn [times app].
    eapply sem_cat; [apply sem_chr; exact Ha|].
    eapply sem_cat; [apply sem_chr; exact Hb|].
    eapply sem_cat; [apply sem_chr; exact Hc|].
    apply sem_chr; exact Hd.
  - eapply sem_cat.
    + apply sem_rep; [exact Hg|lia].
    + apply sem_grp_intro. apply sem_number_intro. assumption.
Qed.

Lemma line_match_nonempty t rest g :
  match_at line_re t = Some (rest, g) -> length rest < length t.
Proof.
  intros M. apply match_at_sound, sem_line_inv in M.
  destruct M as (y & gap & v & -> & [Ly _] & _).
  rewrite !length_app. lia.
Qed.

Lemma occurs_line_iff text : occurs line_re text <-> line_occurrence text.
Proof.
  unfold occurs, line_occurrence. split.
  - intros (pre & t & rest & g & -> & H).
    apply sem_line_inv in H. destruct H as (y & gap & v & -> & Hy & Hg & Hv & _).
    exists pre, y, gap, v, rest. auto.
  - intros (pre & y & gap & v & post & -> & Hy & Hg & Hv).
    exists pre, (y ++ gap ++ v ++ post), post, [(2, v); (1, y)].
    split; [reflexivity|]. apply sem_line_intro; assumption.
Qed.

Lemma year_token_nonempty y : year_token y -> y <> [].
Proof. intros [H _] ->. discriminate. Qed.

Lemma app_nonempty_l (w u : str) : w <> [] -> w ++ u <> [].
Proof. destruct w; [contradiction|discriminate]. Qed.

(** ** Sorting the frame *)

Section InsertionSort.
Variable before : Z -> Z -> bool.
Hypothesis before_true : forall a b, before a b = true -> (a <= b)%Z.
Hypothesis before_false : forall a b, before a b = false -> (b <= a)%Z.

Lemma insert_by_perm a l : Permutation (a :: l) (insert_by before a l).
Proof.
  induction l as [|b l IH]; simpl; [apply Permutation_refl|].
  destruct (before (fst a) (fst b)); [apply Permutation_refl|].
  eapply perm_trans; [apply perm_swap|]. apply perm_skip. exact IH.
Qed.

Lemma insert_by_sorted a l :
  StronglySorted year_le l -> StronglySorted year_le (insert_by before a l).
Proof.
  induction 1 as [|b l Hs IH Hb]; simpl.
  - repeat constructor.
  - destruct (before (fst a) (fst b)) eqn:E.
    + constructor; [constructor; assumption|].
      apply before_true in E. constructor; [exact E|].
      eapply Forall_impl; [|exact Hb]. unfold year_le. intros; lia.
    + constructor; [exact IH|].
      apply before_false in E.
      eapply Permutation_Forall; [apply insert_by_perm|].
      constructor; assumption.
Qed.

Lemma fold_insert_perm l : Permutation l (fold_right (insert_by before) [] l).
Proof.
  induction l as [|a l IH]; simpl; [constructor|].
  eapply perm_trans; [apply perm_skip; exact IH|]. apply insert_by_perm.
Qed.

Lemma fold_insert_sorted l :
  StronglySorted year_le (fold_right (insert_by before) [] l).
Proof.
  induction l as [|a l IH]; simpl; [constructor|].
  apply insert_by_sorted. exact IH.
Qed.
End InsertionSort.

Lemma leb_true a b : (a <=? b)%Z = true -> (a <= b)%Z.
Proof. lia. Qed.
Lemma leb_false a b : (a <=? b)%Z = false -> (b <= a)%Z.
Proof. lia. Qed.
(** The insertion sort meets the contract of the library call. *)
Definition stable_sort_values : sort_values :=
  {| sorted_by_year := stable_sort;
     sort_values_perm := fold_insert_perm Z.leb;
     sort_values_sorted := @fold_insert_sorted Z.leb leb_true leb_false |}.







(** [stable_sort] keeps the rows of each year in their order of appearance. *)
Lemma insert_leb_rows y a l :
  rows_of_year y (insert_by Z.leb a l) = rows_of_year y (a :: l).
Proof.
  induction l as [|b l IH]; [reflexivity|].
  cbn [insert_by]. destruct (fst a <=? fst b)%Z eqn:E; [reflexivity|].
  unfold rows_of_year in *. cbn [filter] in *. rewrite IH.
  destruct (fst b =? y)%Z eqn:Eb, (fst a =? y)%Z eqn:Ea; try reflexivity.
  lia.
Qed.

Lemma stable_sort_rows y l : rows_of_year y (stable_sort l) = rows_of_year y l.
Proof.
  induction l as [|a l IH]; [reflexivity|].
  unfold stable_sort in *. cbn [fold_right]. rewrite insert_leb_rows.
  unfold rows_of_year in *. cbn [filter]. rewrite IH. reflexivity.
Qed.



(** ** create_charts by cases *)

Lemma combine_columns (line_data : list (str * str)) :
  combine (map to_int (map fst line_data)) (map to_float (map snd line_data))
  = data_frame line_data.
Proof.
  induction line_data as [|p l IH]; [reflexivity|].
  cbn [map combine]. rewrite IH. reflexivity.
Qed.

(** [create_charts] raises ValueError when the series holds an integer
    beyond 64 bits, and returns the charts else. *)
Lemma create_charts_eq sv line_data pie_data :
  create_charts sv line_data pie_data
  = if truthy_list line_data && negb (columns_in_range line_data)
    then Raise ValueError
    else Ok (charts_of sv line_data pie_data).
Proof.
  unfold create_charts, charts_of, columns_in_range, to_numeric.
  destruct line_data as [|p l].
  - cbn [truthy_list andb rbind app]. destruct pie_data; reflexivity.
  - cbn [truthy_list andb].
    destruct (existsb integer_out_of_range (map fst (p :: l))); [reflexivity|].
    destruct (existsb integer_out_of_range (map snd (p :: l))); [reflexivity|].
    cbn [negb andb rbind]. rewrite combine_columns.
    destruct pie_data; reflexivity.
Qed.


Lemma create_charts_no_series sv pie_data :
  create_charts sv [] pie_data = Ok (charts_of sv [] pie_data).
Proof. rewrite create_charts_eq. reflexivity. Qed.





(** ** Deciding the shapes on concrete text *)

Lemma all_forallb c w : forallb c w = true -> all c w.
Proof.
  intros H. apply Forall_forall. intros a Ha.
  exact (proj1 (forallb_forall c w) H a Ha).
Qed.

Lemma year_token_dec y :
  (length y =? 4) && forallb is_digit y = true -> year_token y.
Proof.
  intros H. apply andb_prop in H. destruct H as [H1 H2]. split.
  - apply Nat.eqb_eq. assumption.
  - apply all_forallb. assumption.
Qed.

Lemma decimal_int i : i <> [] -> forallb is_digit i = true -> decimal i.
Proof.
  intros Hne H. exists i. split; [apply all_forallb; assumption|]. auto.
Qed.

Lemma decimal_frac i f :
  i <> [] -> f <> [] -> forallb is_digit i = true -> forallb is_digit f = true ->
  decimal (i ++ DOT :: f).
Proof.
  intros Hi Hf Di Df. exists i. split; [apply all_forallb; assumption|].
  split; [assumption|]. right. exists f.
  split; [apply all_forallb; assumption|]. auto.
Qed.

(** The wildcard of the year/value pattern does not pass a line feed. *)
Lemma line_gap_stops_at_line_feed :
  fst (extract_numerical_data (s2l "2023" ++ [NL] ++ s2l "5")) = [].
Proof. reflexivity. Qed.

(** ** create_docx *)

Lemma fold_left_sections (information : list (str * str)) : forall doc,
    fold_left (fun doc item =>
                 let doc := add_heading (fst item) 2 doc in
                 add_paragraph (JStr (snd item)) None doc)
              information doc
    = doc ++ flat_map sector_section information.
Proof.
  induction information as [|item information IH]; intros doc; simpl.
  - symmetry. apply app_nil_r.
  - rewrite IH. unfold add_paragraph, add_heading.
    rewrite <- !app_assoc. reflexivity.
Qed.

Lemma fold_left_bullets (sources : list json) : forall doc,
    fold_left (fun doc source => add_paragraph source (Some "List Bullet"%string) doc)
              sources doc
    = doc ++ map bullet sources.
Proof.
  induction sources as [|x sources IH]; intros doc; simpl.
  - symmetry. apply app_nil_r.
  - rewrite IH. unfold add_paragraph. rewrite <- app_assoc. reflexivity.
Qed.

Lemma create_docx_blocks city country information sources :
  create_docx city country information sources
  = [Heading (s2l "Feasibility Analysis - " ++ location city country) 0;
     Heading (s2l "Location") 1;
     Paragraph (JStr (location city country)) None]
    ++ flat_map sector_section information
    ++ [Heading (s2l "Sources") 1]
    ++ map bullet sources
    ++ [Paragraph (JStr disclaimer) None].
Proof.
  unfold create_docx. rewrite fold_left_sections, fold_left_bullets.
  unfold add_heading, add_paragraph. simpl app.
  rewrite <- !app_assoc. reflexivity.
Qed.

Lemma sector_headings_app d1 d2 :
  sector_headings (d1 ++ d2) = sector_headings d1 ++ sector_headings d2.
Proof. apply flat_map_app. Qed.

Lemma bullets_app d1 d2 : bullets (d1 ++ d2) = bullets d1 ++ bullets d2.
Proof. apply flat_map_app. Qed.

Lemma sector_headings_sections information :
  sector_headings (flat_map sector_section information) = map fst information.
Proof.
  induction information as [|item information IH]; [reflexivity|].
  simpl. f_equal. exact IH.
Qed.

Lemma bullets_sections information :
  bullets (flat_map sector_section information) = [].
Proof.
  induction information as [|item information IH]; [reflexivity|].
  simpl. exact IH.
Qed.

Lemma sector_headings_bullets sources :
  sector_headings (map bullet sources) = [].
Proof. induction sources as [|x l IH]; [reflexivity|exact IH]. Qed.

Lemma bullets_bullets sources : bullets (map bullet sources) = sources.
Proof.
  induction sources as [|x l IH]; [reflexivity|]. simpl. f_equal. exact IH.
Qed.

(** C6.  The assembled document is the title with the location, the
    Location heading and paragraph, one heading and body per sector entry in
    order, the Sources heading, one bullet per source in order with repeats
    kept, and the disclaimer; the same arguments give the same document.  The
    report with one sector and the same link twice has one sector heading
    and two bullets. *)
Theorem report_structure (city country : str) (information : list (str * str))
        (sources : list json) :
  create_docx city country information sources
  = [Heading (s2l "Feasibility Analysis - " ++ city ++ s2l ", " ++ country) 0;
     Heading (s2l "Location") 1;
     Paragraph (JStr (city ++ s2l ", " ++ country)) None]
    ++ flat_map (fun item => [Heading (fst item) 2; Paragraph (JStr (snd item)) None])
                information
    ++ [Heading (s2l "Sources") 1]
    ++ map (fun source => Paragraph source (Some "List Bullet"%string)) sources
    ++ [Paragraph (JStr disclaimer) None]
  /\ sector_headings (create_docx city country information sources)
     = map fst information
  /\ bullets (create_docx city country information sources) = sources
  /\ length (bullets (create_docx city country information sources))
     = length sources
  /\ (let doc := create_docx city country [(s2l "Tourism", s2l "text A")]
                             [JStr (s2l "http://x"); JStr (s2l "http://x")] in
      sector_headings doc = [s2l "Tourism"]
      /\ bullets doc = [JStr (s2l "http://x"); JStr (s2l "http://x")]).
Proof.
  assert (B : bullets (create_docx city country information sources) = sources).
  { rewrite create_docx_blocks, !bullets_app, bullets_sections, bullets_bullets.
    unfold bullets. cbn [flat_map app]. apply app_nil_r. }
  split; [apply create_docx_blocks|]. split; [|split; [exact B|split]].
  - rewrite create_docx_blocks, !sector_headings_app, sector_headings_sections,
      sector_headings_bullets. unfold sector_headings. cbn [flat_map app].
    apply app_nil_r.
  - rewrite B. reflexivity.
  - cbv zeta. rewrite !create_docx_blocks. split; reflexivity.
Qed.

(** ** The download file name *)

Lemma replace_space s :
  replace SP [UNDERSCORE] s = map underscore_for_space s.
Proof.
  induction s as [|a s IH]; [reflexivity|].
  simpl. unfold underscore_for_space at 1. rewrite IH.
  destruct (Ascii.eqb a SP); reflexivity.
Qed.

Lemma no_space_after_replace s : ~ In SP (map underscore_for_space s).
Proof.
  intros H. apply in_map_iff in H. destruct H as (c & E & _).
  unfold underscore_for_space in E.
  destruct (Ascii.eqb c SP) eqn:D.
  - discriminate.
  - subst c. rewrite Ascii.eqb_refl in D. discriminate.
Qed.

(** C7.  The file name is the fixed prefix, the city, an underscore, the
    country and the extension, with every space of city and country turned
    into an underscore and nothing else changed; no space is left in it.  For
    New York, USA it holds New_York and USA. *)
Theorem file_name_underscores (city country : str) :
  file_name city country
  = s2l "Feasibility_Analysis_" ++ map underscore_for_space city
        ++ s2l "_" ++ map underscore_for_space country ++ s2l ".docx"
  /\ ~ In SP (file_name city country)
  /\ file_name (s2l "New York") (s2l "USA")
     = s2l "Feasibility_Analysis_New_York_USA.docx"
  /\ contains (s2l "New_York") (file_name (s2l "New York") (s2l "USA"))
  /\ contains (s2l "USA") (file_name (s2l "New York") (s2l "USA")).
Proof.
  assert (E : file_name city country
              = s2l "Feasibility_Analysis_" ++ map underscore_for_space city
                    ++ s2l "_" ++ map underscore_for_space country ++ s2l ".docx").
  { unfold file_name. rewrite !replace_space. reflexivity. }
  split; [exact E|]. split; [|split; [reflexivity|split]].
  - rewrite E. intros H.
    apply in_app_or in H. destruct H as [H | H].
    { vm_compute in H. intuition discriminate. }
    apply in_app_or in H. destruct H as [H | H].
    { exact (no_space_after_replace _ H). }
    apply in_app_or in H. destruct H as [H | H].
    { vm_compute in H. intuition discriminate. }
    apply in_app_or in H. destruct H as [H | H].
    { exact (no_space_after_replace _ H). }
    vm_compute in H. intuition discriminate.
  - exists (s2l "Feasibility_Analysis_"), (s2l "_USA.docx"). reflexivity.
  - exists (s2l "Feasibility_Analysis_New_York_"), (s2l ".docx"). reflexivity.
Qed.

(** ** The trace of the button handler *)

Lemma emit_all_run evs : emit_all evs = (evs, Ok tt).
Proof.
  induction evs as [|e evs IH]; [reflexivity|].
  cbn [emit_all]. unfold bind, emit. rewrite IH. reflexivity.
Qed.

Lemma post_run w url headers payload :
  post w url headers payload
  = ([Post url headers payload], respond w url headers payload).
Proof. reflexivity. Qed.

Lemma generate_run w city country sector context :
  generate_feasibility_analysis w city country sector context
  = ([Post inference_url (inference_headers w)
           (inference_payload city country sector context)],
     rbind (respond w inference_url (inference_headers w)
                    (inference_payload city country sector context))
           response_text).
Proof.
  unfold generate_feasibility_analysis. rewrite post_run.
  fold inference_url. unfold bind, lift, rbind.
  destruct (respond w inference_url (inference_headers w)
                    (inference_payload city country sector context)); reflexivity.
Qed.

(** The whole handler body, case by case. *)
Lemma analysis_run sv w c k sel :
  analysis sv w c k sel
  = let query := c ++ [SP] ++ k ++ [SP] ++ sel in
    let p1 := Post search_url (search_headers w) (search_payload query) in
    match respond w search_url (search_headers w) (search_payload query) with
    | Raise e => ([p1], Raise e)
    | Ok search_results =>
        match context_of search_results with
        | Raise e => ([p1], Raise e)
        | Ok context =>
            match sources_of search_results with
            | Raise e => ([p1], Raise e)
            | Ok sources =>
                let p2 := Post inference_url (inference_headers w)
                               (inference_payload c k sel context) in
                match rbind (respond w inference_url (inference_headers w)
                                     (inference_payload c k sel context))
                            response_text with
                | Raise e => ([p1; p2], Raise e)
                | Ok data =>
                    match create_charts sv (fst (extract_numerical_data data))
                                        (snd (extract_numerical_data data)) with
                    | Raise e => (narrative_trace w c k sel context data, Raise e)
                    | Ok charts =>
                        match docx_refuses w (create_docx c k [(sel, data)] sources) with
                        | Some e =>
                            (narrative_trace w c k sel context data
                               ++ map PlotlyChart charts ++ [Write (s2l "---")],
                             Raise e)
                        | None =>
                            (full_trace w c k sel context data charts sources, Ok tt)
                        end
                    end
                end
            end
        end
    end.
Proof.
  unfold analysis, search_information. rewrite post_run. fold search_url.
  cbv zeta.
  destruct (respond w search_url (search_headers w)
                    (search_payload (c ++ [SP] ++ k ++ [SP] ++ sel)))
    as [search_results|e]; [|reflexivity].
  unfold bind at 1.
  destruct (context_of search_results) as [context|e]; [|reflexivity].
  unfold lift at 1. unfold bind at 1.
  destruct (sources_of search_results) as [sources|e]; [|reflexivity].
  unfold lift at 1. unfold bind at 1.
  rewrite generate_run.
  destruct (rbind (respond w inference_url (inference_headers w)
                          (inference_payload c k sel context)) response_text)
    as [data|e]; [|reflexivity].
  unfold bind, lift, emit.
  cbn [extract_numerical_data fst snd].
  destruct (create_charts sv (findall line_re data) (findall pie_re data))
    as [charts|e]; [|reflexivity].
  rewrite emit_all_run. unfold saved. cbn [dict_set app].
  destruct (docx_refuses w (create_docx c k [(sel, data)] sources));
    reflexivity.
Qed.

Lemma str_eqb_eq a b : str_eqb a b = true <-> a = b.
Proof.
  unfold str_eqb. destruct (list_eq_dec ascii_dec a b); split; auto; discriminate.
Qed.

(** C5.  When the button is pressed with the city, the country or the sector
    missing, or the custom option is chosen with no idea described, the run
    consists of one warning (followed, for the missing idea, by the stop of
    the script): no request is sent and nothing else is shown or built. *)
Theorem missing_input_warning (sv : sort_values) (w : world) (i : inputs) :
  button i = true ->
  missing (city i) \/ missing (country i) \/ missing (sector_choice i)
  \/ (sector_choice i = custom_option /\ missing (business_idea i)) ->
  (exists msg, script sv w i = ([Warning msg], Ok tt)
               \/ script sv w i = ([Warning msg; Stop], Ok tt))
  /\ network_calls (script sv w i) = 0.
Proof.
  intros Hb H. unfold script, missing in *. rewrite Hb.
  destruct (str_eqb (sector_choice i) custom_option) eqn:E.
  - apply str_eqb_eq in E.
    destruct (business_idea i) as [|x idea] eqn:B; cbn [truthy negb].
    + split; [eexists; right; reflexivity|reflexivity].
    + assert (Hc : truthy (city i) && truthy (country i) = false).
      { destruct H as [-> | [-> | [H | [_ H]]]].
        - reflexivity.
        - apply andb_false_r.
        - rewrite E in H. discriminate.
        - discriminate. }
      rewrite Hc. cbn [andb].
      split; [eexists; left; reflexivity|reflexivity].
  - assert (Hc : truthy (city i) && truthy (country i)
                 && truthy (sector_choice i) = false).
    { destruct H as [-> | [-> | [-> | [H _]]]].
      - reflexivity.
      - rewrite andb_false_r. reflexivity.
      - apply andb_false_r.
      - apply str_eqb_eq in H. congruence. }
    rewrite Hc. split; [eexists; left; reflexivity|reflexivity].
Qed.

Lemma missing_input_warning_witness :
  let i := {| city := s2l "Lima"; country := []; sector_choice := s2l "Tourism";
              business_idea := []; button := true |} in
  button i = true
  /\ missing (country i)
  /\ network_calls
       (script stable_sort_values (sample_world None JNull JNull) i) = 0.
Proof.
  cbv zeta. split; [reflexivity|]. split; [reflexivity|].
  apply (@missing_input_warning stable_sort_values (sample_world None JNull JNull)
           {| city := s2l "Lima"; country := []; sector_choice := s2l "Tourism";
              business_idea := []; button := true |}).
  - reflexivity.
  - right. left. reflexivity.
Defined.

Lemma missing_organic_empty (fields : list (str * json)) :
  lookup (s2l "organic") fields = None ->
  context_of (JObj fields) = Ok [] /\ sources_of (JObj fields) = Ok [].
Proof.
  intros Ho. unfold context_of, sources_of, get_organic. rewrite Ho.
  split; reflexivity.
Qed.

(** C8.  A search body without [organic] counts as no results: the context
    is empty and there are no sources.  Whatever the search gave, results or
    none, an inference body without [output], or whose [output] has no
    [choices], raises KeyError out of the handler: after the two requests
    nothing is shown and no document is built. *)
Theorem missing_response_fields (sv : sort_values) (w : world)
        (c k sel : str) (search_results : json) (context : str)
        (sources : list json) (inference_fields : list (str * json)) :
  respond w search_url (search_headers w)
          (search_payload (c ++ [SP] ++ k ++ [SP] ++ sel)) = Ok search_results ->
  context_of search_results = Ok context ->
  sources_of search_results = Ok sources ->
  respond w inference_url (inference_headers w)
          (inference_payload c k sel context) = Ok (JObj inference_fields) ->
  lookup (s2l "output") inference_fields = None
  \/ (exists out, lookup (s2l "output") inference_fields = Some (JObj out)
                  /\ lookup (s2l "choices") out = None) ->
  (forall fields,
      lookup (s2l "organic") fields = None ->
      context_of (JObj fields) = Ok [] /\ sources_of (JObj fields) = Ok [])
  /\ (forall fields,
        search_results = JObj fields -> lookup (s2l "organic") fields = None ->
        context = [] /\ sources = [])
  /\ analysis sv w c k sel
     = ([Post search_url (search_headers w)
              (search_payload (c ++ [SP] ++ k ++ [SP] ++ sel));
         Post inference_url (inference_headers w)
              (inference_payload c k sel context)],
        Raise KeyError)
  /\ shown (analysis sv w c k sel) = [].
Proof.
  intros Hs Ec Es Hi Hm.
  assert (Et : response_text (JObj inference_fields) = Raise KeyError).
  { unfold response_text, getitem. destruct Hm as [-> | (out & -> & Hc)].
    - reflexivity.
    - cbn [rbind]. rewrite Hc. reflexivity. }
  assert (Ea : analysis sv w c k sel
               = ([Post search_url (search_headers w)
                        (search_payload (c ++ [SP] ++ k ++ [SP] ++ sel));
                   Post inference_url (inference_headers w)
                        (inference_payload c k sel context)],
                  Raise KeyError)).
  { rewrite analysis_run. cbv zeta. rewrite Hs, Ec, Es, Hi.
    cbn [rbind]. rewrite Et. reflexivity. }
  split; [exact missing_organic_empty|]. split; [|split].
  - intros fields -> Ho. destruct (missing_organic_empty _ Ho) as [E1 E2].
    rewrite E1 in Ec. rewrite E2 in Es. split; congruence.
  - exact Ea.
  - rewrite Ea. reflexivity.
Qed.

Lemma missing_response_fields_witness :
  let results :=
    JObj [(s2l "organic",
           JArr [JObj [(s2l "snippet", JStr (s2l "Visitors grew."));
                       (s2l "link", JStr (s2l "http://x"))]])] in
  let w := sample_world None results (JObj []) in
  context_of results = Ok (s2l "Visitors grew.")
  /\ sources_of results = Ok [JStr (s2l "http://x")]
  /\ lookup (s2l "output") [] = @None json
  /\ snd (analysis stable_sort_values w (s2l "Lima") (s2l "Peru") (s2l "Tourism"))
     = Raise KeyError
  /\ shown (analysis stable_sort_values w (s2l "Lima") (s2l "Peru") (s2l "Tourism"))
     = [].
Proof.
  cbv zeta. split; [reflexivity|]. split; [reflexivity|]. split; [reflexivity|].
  destruct (@missing_response_fields stable_sort_values
              (sample_world None
                 (JObj [(s2l "organic",
                         JArr [JObj [(s2l "snippet", JStr (s2l "Visitors grew."));
                                     (s2l "link", JStr (s2l "http://x"))]])])
                 (JObj []))
              (s2l "Lima") (s2l "Peru") (s2l "Tourism")
              (JObj [(s2l "organic",
                      JArr [JObj [(s2l "snippet", JStr (s2l "Visitors grew."));
                                  (s2l "link", JStr (s2l "http://x"))]])])
              (s2l "Visitors grew.") [JStr (s2l "http://x")] []
              eq_refl eq_refl eq_refl eq_refl
              (or_introl eq_refl)) as (_ & _ & E & Sh).
  split; [rewrite E; reflexivity|exact Sh].
Defined.

(** With [organic] missing and a well-formed inference body the inference
    request carries the empty context and the narrative is shown. *)
Lemma missing_organic_report (sv : sort_values) (w : world) (c k sel text : str)
      (search_fields : list (str * json)) :
  (forall h p, respond w search_url h p = Ok (JObj search_fields)) ->
  lookup (s2l "organic") search_fields = None ->
  (forall h p, respond w inference_url h p = Ok (inference_body_with text)) ->
  exists rest,
    fst (analysis sv w c k sel)
    = narrative_trace w c k sel [] (strip text) ++ rest.
Proof.
  intros Hs Ho Hi. rewrite analysis_run. cbv zeta. rewrite Hs.
  unfold context_of, sources_of, get_organic. rewrite Ho. cbn [rbind iterate fields join].
  rewrite Hi. unfold inference_body_with.
  match goal with
  | |- context [rbind (Ok ?j) response_text] =>
      change (rbind (Ok j) response_text) with (@Ok str (strip text))
  end.
  cbv beta iota.
  match goal with
  | |- context [create_charts ?a ?l ?p] => destruct (create_charts a l p)
  end.
  - match goal with
    | |- context [docx_refuses ?a ?d] => destruct (docx_refuses a d)
    end; eexists; reflexivity.
  - exists []. rewrite app_nil_r. reflexivity.
Qed.

(** ** The charts of a run come from the narrative alone *)

Lemma charts_shown_app ev1 ev2 (r1 r2 r3 : result unit) :
  charts_shown (ev1 ++ ev2, r1) = charts_shown (ev1, r2) ++ charts_shown (ev2, r3).
Proof. unfold charts_shown. cbn [fst]. apply flat_map_app. Qed.

Lemma charts_shown_plotly charts (r : result unit) :
  charts_shown (map PlotlyChart charts, r) = charts.
Proof.
  unfold charts_shown. cbn [fst].
  induction charts as [|c l IH]; [reflexivity|]. simpl. f_equal. exact IH.
Qed.

Lemma charts_shown_narrative w c k sel context data (r : result unit) :
  charts_shown (narrative_trace w c k sel context data, r) = [].
Proof. reflexivity. Qed.

Lemma analysis_charts sv w c k sel text :
  narrative_shown (analysis sv w c k sel) = Some text ->
  charts_shown (analysis sv w c k sel) = charts_from sv text.
Proof.
  rewrite analysis_run. cbv zeta. unfold charts_from.
  destruct (respond w search_url _ _) as [sr|e]; [|discriminate].
  destruct (context_of sr) as [ctx|e]; [|discriminate].
  destruct (sources_of sr) as [srcs|e]; [|discriminate].
  destruct (rbind _ response_text) as [data|e]; [|discriminate].
  assert (N : forall rest r,
             narrative_shown (narrative_trace w c k sel ctx data ++ rest, r)
             = Some text -> data = text).
  { intros rest r H. unfold narrative_shown, narrative_trace in H.
    cbn [fst app first_write] in H. congruence. }
  destruct (create_charts sv _ _) as [charts|e] eqn:C.
  - destruct (docx_refuses w _); intros H.
    + pose proof (N _ _ H) as <-. rewrite C.
      match goal with
      | |- charts_shown (?a ++ ?b ++ ?c, ?r) = _ =>
          rewrite (@charts_shown_app a (b ++ c) r r r),
                  (@charts_shown_app b c r r r)
      end.
      rewrite charts_shown_plotly. unfold charts_shown.
      cbn [fst flat_map app narrative_trace]. apply app_nil_r.
    + unfold full_trace in H |- *. pose proof (N _ _ H) as <-. rewrite C.
      match goal with
      | |- charts_shown (?a ++ ?b ++ ?c, ?r) = _ =>
          rewrite (@charts_shown_app a (b ++ c) r r r),
                  (@charts_shown_app b c r r r)
      end.
      rewrite charts_shown_plotly. unfold charts_shown.
      cbn [fst flat_map app narrative_trace]. apply app_nil_r.
  - intros H. rewrite <- (app_nil_r (narrative_trace w c k sel ctx data)) in H.
    pose proof (N _ _ H) as <-. rewrite C. reflexivity.
Qed.

Lemma script_charts sv w i text :
  narrative_shown (script sv w i) = Some text ->
  charts_shown (script sv w i) = charts_from sv text.
Proof.
  unfold script.
  destruct (str_eqb (sector_choice i) custom_option).
  - destruct (negb (truthy (business_idea i))); [discriminate|].
    destruct (button i); [|discriminate].
    destruct (truthy (city i) && truthy (country i)
              && truthy (s2l "Custom idea: " ++ business_idea i));
      [apply analysis_charts|discriminate].
  - destruct (button i); [|discriminate].
    destruct (truthy (city i) && truthy (country i) && truthy (sector_choice i));
      [apply analysis_charts|discriminate].
Qed.

(** C3.  A text without any match of the year/value pattern gives an empty
    series; [create_charts] then returns, raising nothing, and what it
    returns holds no line chart: the charts are at most the pie chart.  A
    run of the script that shows such a narrative shows no line chart. *)
Theorem no_match_no_line_chart (sv : sort_values) (text : str) :
  ~ line_occurrence text ->
  fst (extract_numerical_data text) = []
  /\ exists charts,
      create_charts sv (fst (extract_numerical_data text))
                    (snd (extract_numerical_data text)) = Ok charts
      /\ filter is_scatter charts = []
      /\ length charts <= 1
      /\ (forall w i,
             narrative_shown (script sv w i) = Some text ->
             charts_shown (script sv w i) = charts).
Proof.
  intros H. rewrite <- occurs_line_iff in H. apply findall_nil_iff in H.
  split; [exact H|].
  exists (charts_of sv [] (snd (extract_numerical_data text))).
  assert (C : create_charts sv (fst (extract_numerical_data text))
                            (snd (extract_numerical_data text))
              = Ok (charts_of sv [] (snd (extract_numerical_data text)))).
  { cbn [extract_numerical_data fst snd]. rewrite H.
    apply create_charts_no_series. }
  split; [exact C|]. split; [|split].
  - unfold charts_of. cbn [truthy_list app].
    destruct (truthy_list _); reflexivity.
  - unfold charts_of. cbn [truthy_list app].
    destruct (truthy_list _); simpl; auto.
  - intros w i N. rewrite (script_charts _ _ _ N). unfold charts_from.
    rewrite C. reflexivity.
Qed.

Lemma no_match_no_line_chart_witness :
  ~ line_occurrence (s2l "Tourism: 40% of visitors, since 999")
  /\ create_charts stable_sort_values
       (fst (extract_numerical_data (s2l "Tourism: 40% of visitors, since 999")))
       (snd (extract_numerical_data (s2l "Tourism: 40% of visitors, since 999")))
     = Ok [Pie [s2l "Tourism"] [40%Q] "Market Share"].
Proof.
  assert (H : ~ line_occurrence (s2l "Tourism: 40% of visitors, since 999")).
  { rewrite <- occurs_line_iff. apply findall_nil_iff. reflexivity. }
  split; [exact H|].
  destruct (@no_match_no_line_chart stable_sort_values
              (s2l "Tourism: 40% of visitors, since 999") H)
    as (E & charts & C & _).
  rewrite C. vm_compute in C. injection C as <-. reflexivity.
Defined.

(** C9.  The extraction of a run depends on the narrative alone.  Two runs
    of the script, in whatever surroundings (secrets, services, widget
    values, document library), that show the same narrative show the same
    charts: those [create_charts] returns for the series and the breakdown
    extracted from that narrative, and none when it raises. *)
Theorem extraction_depends_on_text_only (sv : sort_values) (w1 w2 : world)
        (i1 i2 : inputs) (text : str) :
  narrative_shown (script sv w1 i1) = Some text ->
  narrative_shown (script sv w2 i2) = Some text ->
  charts_shown (script sv w2 i2) = charts_shown (script sv w1 i1)
  /\ (forall charts,
        create_charts sv (fst (extract_numerical_data text))
                      (snd (extract_numerical_data text)) = Ok charts ->
        charts_shown (script sv w1 i1) = charts)
  /\ (forall e,
        create_charts sv (fst (extract_numerical_data text))
                      (snd (extract_numerical_data text)) = Raise e ->
        charts_shown (script sv w1 i1) = []).
Proof.
  intros H1 H2.
  rewrite (script_charts _ _ _ H1), (script_charts _ _ _ H2).
  unfold charts_from. split; [reflexivity|].
  split; intros x E; rewrite E; reflexivity.
Qed.

Lemma extraction_depends_on_text_only_witness :
  let text := s2l "In 2024 sales reach 5. Hotels: 60%" in
  let w1 := sample_world None (JObj []) (inference_body_with text) in
  let w2 := {| TOGETHER_API_KEY := Some (s2l "key");
               SERPER_API_KEY := None;
               respond := fun url _ _ =>
                 if String.eqb url search_url
                 then Ok (JObj [(s2l "organic",
                                 JArr [JObj [(s2l "snippet", JStr (s2l "a"));
                                             (s2l "link", JNum 5)]])])
                 else Ok (inference_body_with text);
               docx_refuses := fun _ => Some TypeError |} in
  let i1 := {| city := s2l "Lima"; country := s2l "Peru";
               sector_choice := s2l "Tourism"; business_idea := [];
               button := true |} in
  let i2 := {| city := s2l "Quito"; country := s2l "Ecuador";
               sector_choice := custom_option; business_idea := s2l "Hostel";
               button := true |} in
  narrative_shown (script stable_sort_values w1 i1) = Some text
  /\ narrative_shown (script stable_sort_values w2 i2) = Some text
  /\ snd (script stable_sort_values w1 i1) = Ok tt
  /\ snd (script stable_sort_values w2 i2) = Raise TypeError
  /\ charts_shown (script stable_sort_values w2 i2)
     = charts_shown (script stable_sort_values w1 i1).
Proof.
  cbv zeta.
  split; [vm_compute; reflexivity|]. split; [vm_compute; reflexivity|].
  split; [vm_compute; reflexivity|]. split; [vm_compute; reflexivity|].
  refine (proj1 (@extraction_depends_on_text_only stable_sort_values _ _ _ _
                   (s2l "In 2024 sales reach 5. Hotels: 60%") _ _));
    vm_compute; reflexivity.
Defined.

(** ** Facts on the character classes *)

Ltac by_cases_on a :=
  destruct a as [[] [] [] [] [] [] [] []]; vm_compute; intros;
  try reflexivity; try discriminate.

Lemma is_colon_eq a : is_colon a = true -> a = COLON.
Proof. by_cases_on a. Qed.

Lemma is_percent_eq a : is_percent a = true -> a = PERCENT.
Proof. by_cases_on a. Qed.

Lemma word_not_space a : is_word a = true -> is_space a = false.
Proof. by_cases_on a. Qed.

Lemma space_not_word a : is_space a = true -> is_word a = false.
Proof. by_cases_on a. Qed.

Lemma digit_not_space a : is_digit a = true -> is_space a = false.
Proof. by_cases_on a. Qed.

Lemma all_not_in c (a : ascii) w : all c w -> c a = false -> ~ In a w.
Proof.
  intros H Ha Hin. pose proof (proj1 (Forall_forall _ _) H a Hin). congruence.
Qed.

Lemma all_app_inv c w1 w2 : all c (w1 ++ w2) -> all c w1 /\ all c w2.
Proof. intros H. apply Forall_app in H. exact H. Qed.

Lemma all_rev c w : all c w -> all c (rev w).
Proof. intros H. apply Forall_rev. exact H. Qed.

(** ** Cutting a text at the end of a run *)

Lemma app_split_left c : forall y y' x x' : str,
    y ++ x = y' ++ x' -> all c y -> all c y' -> stops c x -> stops c x' ->
    y = y' /\ x = x'.
Proof.
  induction y as [|a y IH]; intros y' x x' E Hy Hy' Hx Hx'.
  - destruct y' as [|b y']; [auto|].
    simpl in E. subst x. simpl in Hx. inversion Hy'; subst. congruence.
  - destruct y' as [|b y'].
    + simpl in E. subst x'. simpl in Hx'. inversion Hy; subst. congruence.
    + simpl in E. inversion E; subst. inversion Hy; inversion Hy'; subst.
      destruct (IH y' x x') as [-> ->]; auto.
Qed.

Lemma app_split_right c (x x' y y' : str) :
  x ++ y = x' ++ y' -> all c y -> all c y' ->
  stops c (rev x) -> stops c (rev x') -> x = x' /\ y = y'.
Proof.
  intros E Hy Hy' Hx Hx'.
  apply (f_equal (@rev ascii)) in E. rewrite !rev_app_distr in E.
  destruct (@app_split_left c (rev y) (rev y') (rev x) (rev x') E)
    as [E1 E2]; try (apply all_rev; assumption); try assumption.
  apply (f_equal (@rev ascii)) in E1, E2. rewrite !rev_involutive in E1, E2.
  auto.
Qed.

(** A run at the head of a text is the beginning of the longest one. *)
Lemma run_prefix c : forall y y' r x' : str,
    y ++ r = y' ++ x' -> all c y -> all c y' -> stops c x' ->
    exists z, y' = y ++ z /\ r = z ++ x'.
Proof.
  induction y as [|a y IH]; intros y' r x' E Hy Hy' Hx'.
  - exists y'. auto.
  - destruct y' as [|b y'].
    + simpl in E. subst x'. simpl in Hx'. inversion Hy; subst. congruence.
    + simpl in E. inversion E; subst. inversion Hy; inversion Hy'; subst.
      destruct (IH y' r x') as (z & -> & ->); auto.
      exists z. auto.
Qed.

(** Cutting at a character that occurs in neither tail. *)
Lemma app_split_last (a : ascii) : forall x x' y y' : str,
    x ++ a :: y = x' ++ a :: y' -> ~ In a y -> ~ In a y' ->
    x = x' /\ y = y'.
Proof.
  intros x x' y y' E Hy Hy'.
  apply (f_equal (@rev ascii)) in E. rewrite !rev_app_distr in E.
  simpl in E. rewrite <- !app_assoc in E. simpl in E.
  assert (H : forall u u' v v' : str,
             u ++ a :: v = u' ++ a :: v' -> ~ In a u -> ~ In a u' ->
             u = u' /\ v = v').
  { induction u as [|b u IH]; intros u' v v' E' Hu Hu'.
    - destruct u' as [|b' u']; simpl in E'.
      + inversion E'. auto.
      + inversion E'; subst. exfalso. apply Hu'. left. reflexivity.
    - destruct u' as [|b' u']; simpl in E'.
      + inversion E'; subst. exfalso. apply Hu. left. reflexivity.
      + inversion E'; subst.
        destruct (IH u' v v') as [-> ->]; auto.
        * intros Hin. apply Hu. right. exact Hin.
        * intros Hin. apply Hu'. right. exact Hin. }
  destruct (H (rev y) (rev y') (rev x) (rev x') E) as [E1 E2].
  - rewrite <- in_rev. exact Hy.
  - rewrite <- in_rev. exact Hy'.
  - apply (f_equal (@rev ascii)) in E1, E2. rewrite !rev_involutive in E1, E2.
    auto.
Qed.

Lemma stops_rev_app c (x y : str) :
  y <> [] -> stops c (rev y) -> stops c (rev (x ++ y)).
Proof.
  intros Hne H. rewrite rev_app_distr.
  destruct (rev y) as [|a t] eqn:E.
  - apply (f_equal (@rev ascii)) in E. rewrite rev_involutive in E.
    simpl in E. contradiction.
  - exact H.
Qed.

Lemma all_last c (w : str) :
  all c w -> w <> [] -> exists a t, rev w = a :: t /\ c a = true.
Proof.
  intros H Hne. destruct (rev w) as [|a t] eqn:E.
  - apply (f_equal (@rev ascii)) in E. rewrite rev_involutive in E.
    simpl in E. contradiction.
  - exists a, t. split; [reflexivity|].
    apply all_rev in H. rewrite E in H. inversion H. assumption.
Qed.

Lemma all_first c (w : str) :
  all c w -> w <> [] -> exists a t, w = a :: t /\ c a = true.
Proof.
  intros H Hne. destruct w as [|a t]; [contradiction|].
  exists a, t. inversion H. auto.
Qed.

(** ** The label/percentage pattern *)

Lemma share_text_app lbl sp1 sp2 v sp3 rest :
  share_text lbl sp1 sp2 v sp3 ++ rest
  = lbl ++ sp1 ++ COLON :: sp2 ++ v ++ sp3 ++ PERCENT :: rest.
Proof.
  unfold share_text. rewrite <- !app_assoc. simpl.
  rewrite <- !app_assoc. reflexivity.
Qed.

Lemma length_pos_nonempty (w : str) : 1 <= length w -> w <> [].
Proof. destruct w; simpl; [lia|discriminate]. Qed.

Lemma nonempty_length_pos (w : str) : w <> [] -> 1 <= length w.
Proof. destruct w; simpl; [contradiction|lia]. Qed.

Lemma sem_label_inv t s1 g g0 :
  sem (Cat (Rep true 1 is_word)
           (Opt (Cat (Rep true 1 is_space) (Rep true 1 is_word)))) t g s1 g0 ->
  g0 = g /\ exists lbl, t = lbl ++ s1 /\ label lbl.
Proof.
  intros H.
  apply sem_cat_inv in H. destruct H as (s2 & g2 & H1 & H2).
  apply sem_rep_inv in H1. destruct H1 as (-> & w1 & -> & Hw1 & L1).
  apply length_pos_nonempty in L1.
  apply sem_opt_inv in H2. destruct H2 as [H2 | [-> ->]].
  - apply sem_cat_inv in H2. destruct H2 as (s3 & g3 & H2 & H3).
    apply sem_rep_inv in H2. destruct H2 as (-> & sp & -> & Hsp & Lsp).
    apply sem_rep_inv in H3. destruct H3 as (-> & w2 & -> & Hw2 & L2).
    apply length_pos_nonempty in Lsp, L2.
    split; [reflexivity|]. exists (w1 ++ sp ++ w2). split.
    + rewrite <- !app_assoc. reflexivity.
    + right. exists w1, sp, w2. unfold one_word. auto 10.
  - split; [reflexivity|]. exists w1. split; [reflexivity|].
    left. split; assumption.
Qed.

Lemma sem_label_intro lbl s1 g :
  label lbl ->
  sem (Cat (Rep true 1 is_word)
           (Opt (Cat (Rep true 1 is_space) (Rep true 1 is_word))))
      (lbl ++ s1) g s1 g.
Proof.
  intros [[Hw Hne] | (w1 & sp & w2 & -> & [Hw1 N1] & Hsp & Nsp & [Hw2 N2])].
  - eapply sem_cat.
    + apply sem_rep; [exact Hw|apply nonempty_length_pos; exact Hne].
    + apply sem_opt_none.
  - rewrite <- !app_assoc. eapply sem_cat.
    + apply sem_rep; [exact Hw1|apply nonempty_length_pos; exact N1].
    + apply sem_opt_some. eapply sem_cat.
      * apply sem_rep; [exact Hsp|apply nonempty_length_pos; exact Nsp].
      * apply sem_rep; [exact Hw2|apply nonempty_length_pos; exact N2].
Qed.

Lemma sem_pie_inv t rest g :
  sem pie_re t [] rest g ->
  exists lbl sp1 sp2 v sp3,
    t = share_text lbl sp1 sp2 v sp3 ++ rest
    /\ label lbl /\ all is_space sp1 /\ all is_space sp2 /\ decimal v
    /\ all is_space sp3 /\ g = [(2, v); (1, lbl)].
Proof.
  unfold pie_re. intros H.
  apply sem_cat_inv in H. destruct H as (s1 & g1 & HL & H).
  apply sem_grp_inv in HL. destruct HL as (g0 & lbl & HL & -> & ->).
  apply sem_label_inv in HL. destruct HL as (-> & lbl' & E & Hlbl).
  apply app_inv_tail in E. subst lbl'.
  apply sem_cat_inv in H. destruct H as (s2 & g2 & H1 & H).
  apply sem_rep_inv in H1. destruct H1 as (-> & sp1 & -> & Hsp1 & _).
  apply sem_cat_inv in H. destruct H as (s3 & g3 & H1 & H).
  apply sem_chr_inv in H1. destruct H1 as (-> & a & -> & Ha).
  apply is_colon_eq in Ha. subst a.
  apply sem_cat_inv in H. destruct H as (s4 & g4 & H1 & H).
  apply sem_rep_inv in H1. destruct H1 as (-> & sp2 & -> & Hsp2 & _).
  apply sem_cat_inv in H. destruct H as (s5 & g5 & H1 & H).
  apply sem_grp_inv in H1. destruct H1 as (g6 & v & H1 & -> & ->).
  apply sem_number_inv in H1. destruct H1 as (-> & v' & E & Hv).
  apply app_inv_tail in E. subst v'.
  apply sem_cat_inv in H. destruct H as (s6 & g7 & H1 & H).
  apply sem_rep_inv in H1. destruct H1 as (-> & sp3 & -> & Hsp3 & _).
  apply sem_chr_inv in H. destruct H as (-> & b & -> & Hb).
  apply is_percent_eq in Hb. subst b.
  exists lbl, sp1, sp2, v, sp3. rewrite share_text_app. auto 10.
Qed.

Lemma sem_pie_intro lbl sp1 sp2 v sp3 rest :
  label lbl -> all is_space sp1 -> all is_space sp2 -> decimal v ->
  all is_space sp3 ->
  sem pie_re (share_text lbl sp1 sp2 v sp3 ++ rest) [] rest [(2, v); (1, lbl)].
Proof.
  intros Hl H1 H2 Hv H3. rewrite share_text_app. unfold pie_re.
  eapply sem_cat.
  { apply sem_grp_intro. apply sem_label_intro. exact Hl. }
  eapply sem_cat; [apply sem_rep; [exact H1|lia]|].
  eapply sem_cat; [apply sem_chr; reflexivity|].
  eapply sem_cat; [apply sem_rep; [exact H2|lia]|].
  eapply sem_cat; [apply sem_grp_intro, sem_number_intro; exact Hv|].
  eapply sem_cat; [apply sem_rep; [exact H3|lia]|].
  apply sem_chr. reflexivity.
Qed.

Lemma app_split_first (a : ascii) : forall u u' v v' : str,
    u ++ a :: v = u' ++ a :: v' -> ~ In a u -> ~ In a u' ->
    u = u' /\ v = v'.
Proof.
  induction u as [|b u IH]; intros u' v v' E Hu Hu'.
  - destruct u' as [|b' u']; simpl in E.
    + inversion E. auto.
    + inversion E; subst. exfalso. apply Hu'. left. reflexivity.
  - destruct u' as [|b' u']; simpl in E.
    + inversion E; subst. exfalso. apply Hu. left. reflexivity.
    + inversion E; subst.
      destruct (IH u' v v') as [-> ->]; auto.
      * intros Hin. apply Hu. right. exact Hin.
      * intros Hin. apply Hu'. right. exact Hin.
Qed.

Lemma first_occurrence (a : ascii) : forall l : str,
    In a l -> exists l1 l2, l = l1 ++ a :: l2 /\ ~ In a l1.
Proof.
  induction l as [|b l IH]; intros H; [contradiction|].
  destruct (ascii_dec b a) as [-> | N].
  - exists [], l. auto.
  - destruct H as [H | H]; [contradiction|].
    destruct (IH H) as (l1 & l2 & -> & Hn).
    exists (b :: l1), l2. split; [reflexivity|].
    intros [E | Hin]; [contradiction|]. exact (Hn Hin).
Qed.

(** Which characters the parts of a match hold. *)
Lemma label_chars lbl :
  label lbl -> Forall (fun a => is_word a = true \/ is_space a = true) lbl.
Proof.
  intros [[Hw _] | (w1 & sp & w2 & -> & [Hw1 _] & Hsp & _ & [Hw2 _])].
  - eapply Forall_impl; [|exact Hw]. auto.
  - apply Forall_app. split; [eapply Forall_impl; [|exact Hw1]; auto|].
    apply Forall_app. split; [eapply Forall_impl; [|exact Hsp]; auto|].
    eapply Forall_impl; [|exact Hw2]. auto.
Qed.

Lemma decimal_chars v :
  decimal v -> Forall (fun a => is_digit a = true \/ a = DOT) v.
Proof.
  intros (i & Hi & _ & [-> | (f & Hf & _ & ->)]).
  - eapply Forall_impl; [|exact Hi]. auto.
  - apply Forall_app. split; [eapply Forall_impl; [|exact Hi]; auto|].
    constructor; [auto|]. eapply Forall_impl; [|exact Hf]. auto.
Qed.

Lemma label_no (a : ascii) lbl :
  is_word a = false -> is_space a = false -> label lbl -> ~ In a lbl.
Proof.
  intros Hw Hs Hl Hin.
  pose proof (proj1 (Forall_forall _ _) (label_chars Hl) a Hin) as [H | H];
    congruence.
Qed.

Lemma decimal_no (a : ascii) v :
  is_digit a = false -> a <> DOT -> decimal v -> ~ In a v.
Proof.
  intros Hd Hn Hv Hin.
  pose proof (proj1 (Forall_forall _ _) (decimal_chars Hv) a Hin) as [H | H];
    congruence.
Qed.

Lemma label_ends_in_word lbl : label lbl -> stops is_space (rev lbl).
Proof.
  intros [[Hw Hne] | (w1 & sp & w2 & -> & _ & _ & _ & [Hw2 N2])].
  - destruct (all_last Hw Hne) as (a & t & E & Ha). rewrite E. simpl.
    apply word_not_space. exact Ha.
  - rewrite app_assoc. apply stops_rev_app; [exact N2|].
    destruct (all_last Hw2 N2) as (a & t & E & Ha). rewrite E. simpl.
    apply word_not_space. exact Ha.
Qed.

Lemma decimal_starts_with_digit v rest : decimal v -> stops is_space (v ++ rest).
Proof.
  intros (i & Hi & Hne & H).
  destruct (all_first Hi Hne) as (a & t & -> & Ha).
  destruct H as [-> | (f & _ & _ & ->)]; simpl; apply digit_not_space; exact Ha.
Qed.

Lemma decimal_ends_in_digit v : decimal v -> stops is_space (rev v).
Proof.
  intros (i & Hi & Hne & [-> | (f & Hf & Nf & ->)]).
  - destruct (all_last Hi Hne) as (a & t & E & Ha). rewrite E. simpl.
    apply digit_not_space. exact Ha.
  - change (i ++ DOT :: f) with (i ++ [DOT] ++ f). rewrite app_assoc.
    apply stops_rev_app; [exact Nf|].
    destruct (all_last Hf Nf) as (a & t & E & Ha). rewrite E. simpl.
    apply digit_not_space. exact Ha.
Qed.

Lemma not_in_app (a : ascii) (x y : str) :
  ~ In a x -> ~ In a y -> ~ In a (x ++ y).
Proof. intros Hx Hy H. apply in_app_or in H. tauto. Qed.

Lemma spaces_no (a : ascii) sp : is_space a = false -> all is_space sp -> ~ In a sp.
Proof. intros Ha Hs. eapply all_not_in; eassumption. Qed.

(** The part of a match in front of its colon, and between colon and
    percent sign, holds neither sign. *)
Lemma pie_head_no_colon lbl sp1 :
  label lbl -> all is_space sp1 -> ~ In COLON (lbl ++ sp1).
Proof.
  intros Hl Hs. apply not_in_app.
  - apply label_no; auto.
  - apply spaces_no; auto.
Qed.

Lemma pie_tail_no (a : ascii) sp2 v sp3 :
  is_space a = false -> is_digit a = false -> a <> DOT ->
  all is_space sp2 -> decimal v -> all is_space sp3 ->
  ~ In a (sp2 ++ v ++ sp3).
Proof.
  intros Hs Hd Hn H2 Hv H3. repeat apply not_in_app.
  - apply spaces_no; auto.
  - apply decimal_no; auto.
  - apply spaces_no; auto.
Qed.

(** At the head of "<label>: <number>%" the pattern has one match. *)
Lemma pie_match_unique lbl sp1 sp2 v sp3 post rest g :
  label lbl -> all is_space sp1 -> all is_space sp2 -> decimal v ->
  all is_space sp3 ->
  sem pie_re (share_text lbl sp1 sp2 v sp3 ++ post) [] rest g ->
  rest = post /\ g = [(2, v); (1, lbl)].
Proof.
  intros Hl H1 H2 Hv H3 S.
  apply sem_pie_inv in S.
  destruct S as (lbl' & sp1' & sp2' & v' & sp3' & E & Hl' & H1' & H2' & Hv' & H3' & ->).
  rewrite !share_text_app in E.
  assert (E' : (lbl ++ sp1) ++ COLON :: (sp2 ++ v ++ sp3) ++ PERCENT :: post
               = (lbl' ++ sp1') ++ COLON :: (sp2' ++ v' ++ sp3') ++ PERCENT :: rest)
    by (rewrite <- !app_assoc; exact E).
  apply app_split_first in E'; try (apply pie_head_no_colon; assumption).
  destruct E' as [E1 E2].
  apply app_split_first in E2; try (apply pie_tail_no; auto; discriminate).
  destruct E2 as [E2 E3].
  apply app_split_right with (c := is_space) in E1;
    auto using label_ends_in_word.
  destruct E1 as [-> _].
  apply app_split_left with (c := is_space) in E2;
    auto using decimal_starts_with_digit.
  destruct E2 as [_ E2].
  apply app_split_right with (c := is_space) in E2;
    auto using decimal_ends_in_digit.
  destruct E2 as [-> _]. auto.
Qed.

(** ** What stands in front of a label *)

Lemma lstrip_spaces sp x : all is_space sp -> lstrip (sp ++ x) = lstrip x.
Proof.
  induction 1 as [|a sp Ha _ IH]; [reflexivity|].
  simpl. rewrite Ha. exact IH.
Qed.

Lemma word_end_not_boundary p x :
  all is_word x -> x <> [] -> ~ stops is_word (rev (p ++ x)).
Proof.
  intros Hx Hne H. destruct (all_last Hx Hne) as (a & t & E & Ha).
  rewrite rev_app_distr, E in H. simpl in H. congruence.
Qed.

Lemma word_end_not_boundary_strip p x :
  all is_word x -> x <> [] -> ~ stops is_word (lstrip (rev (p ++ x))).
Proof.
  intros Hx Hne H. destruct (all_last Hx Hne) as (a & t & E & Ha).
  rewrite rev_app_distr, E in H. simpl in H.
  rewrite (word_not_space _ Ha) in H. simpl in H. congruence.
Qed.

Lemma word_space_end_not_boundary_strip p x sp :
  all is_word x -> x <> [] -> all is_space sp ->
  ~ stops is_word (lstrip (rev (p ++ x ++ sp))).
Proof.
  intros Hx Hne Hsp H. rewrite app_assoc, rev_app_distr in H.
  rewrite lstrip_spaces in H by (apply all_rev; exact Hsp).
  exact (word_end_not_boundary_strip p Hx Hne H).
Qed.

(** The longest run at the end of a text holds every run at its end. *)
Lemma run_suffix c (x y x' y' : str) :
  x ++ y = x' ++ y' -> all c y -> all c y' -> stops c (rev x) ->
  exists z, y = z ++ y' /\ x' = x ++ z /\ all c z.
Proof.
  intros E Hy Hy' Hx.
  apply (f_equal (@rev ascii)) in E. rewrite !rev_app_distr in E. symmetry in E.
  destruct (@run_prefix c (rev y') (rev y) (rev x') (rev x) E)
    as (z & E1 & E2); try (apply all_rev; assumption); try assumption.
  apply (f_equal (@rev ascii)) in E1, E2.
  rewrite rev_app_distr, !rev_involutive in E1, E2.
  exists (rev z). split; [exact E1|]. split; [exact E2|].
  rewrite E1 in Hy. apply all_app_inv in Hy. apply Hy.
Qed.

Lemma space_run_not_words sp :
  all is_space sp -> sp <> [] -> ~ all is_word sp.
Proof.
  intros Hs Hne Hw. destruct (all_first Hs Hne) as (a & t & -> & Ha).
  inversion Hw; subst. rewrite (space_not_word _ Ha) in *. discriminate.
Qed.

Lemma space_end_stops_word (x sp : str) :
  all is_space sp -> sp <> [] -> stops is_word (rev (x ++ sp)).
Proof.
  intros Hs Hne. apply stops_rev_app; [exact Hne|].
  destruct (all_last Hs Hne) as (a & t & E & Ha). rewrite E. simpl.
  apply space_not_word. exact Ha.
Qed.

Lemma word_end_stops_space (x w : str) :
  all is_word w -> w <> [] -> stops is_space (rev (x ++ w)).
Proof.
  intros Hw Hne. apply stops_rev_app; [exact Hne|].
  destruct (all_last Hw Hne) as (a & t & E & Ha). rewrite E. simpl.
  apply word_not_space. exact Ha.
Qed.

(** A label with something in front of it is again a label only against
    the boundary. *)
Lemma label_extension_absurd pre1 pre2 lbl lbl' :
  label lbl' -> label lbl -> lbl' = pre2 ++ lbl -> pre2 <> [] ->
  left_boundary (pre1 ++ pre2) lbl -> False.
Proof.
  intros Hl' Hl E Hne [B2 B1].
  destruct Hl as [[Hw Nw] | T].
  - specialize (B1 (conj Hw Nw)).
    destruct Hl' as [[Hw' _] | (w1 & sp & w2 & E' & [Hw1 N1] & Hsp & Nsp & [Hw2 N2])].
    + subst lbl'. apply all_app_inv in Hw'. destruct Hw' as [Hp _].
      exact (word_end_not_boundary_strip pre1 Hp Hne B1).
    + rewrite E' in E. rewrite app_assoc in E.
      destruct (@run_suffix is_word (w1 ++ sp) w2 pre2 lbl E)
        as (z & Ez & Ep & Hz); auto using space_end_stops_word.
      subst pre2. destruct z as [|a z].
      * rewrite app_nil_r in B1.
        exact (word_space_end_not_boundary_strip pre1 Hw1 N1 Hsp B1).
      * rewrite app_assoc in B1.
        refine (word_end_not_boundary_strip _ Hz _ B1). discriminate.
  - specialize (B2 T).
    destruct T as (u1 & s & u2 & -> & [Hu1 Nu1] & Hs & Ns & [Hu2 Nu2]).
    destruct Hl' as [[Hw' _] | (w1 & sp & w2 & E' & [Hw1 N1] & Hsp & Nsp & [Hw2 N2])].
    + subst lbl'. apply all_app_inv in Hw'. destruct Hw' as [_ Hw'].
      apply all_app_inv in Hw'. destruct Hw' as [_ Hw'].
      apply all_app_inv in Hw'. destruct Hw' as [Hw' _].
      exact (space_run_not_words Hs Ns Hw').
    + rewrite E' in E.
      assert (E2 : (w1 ++ sp) ++ w2 = (pre2 ++ u1 ++ s) ++ u2)
        by (rewrite <- !app_assoc; exact E).
      apply app_split_right with (c := is_word) in E2; auto.
      * destruct E2 as [E2 _].
        assert (E3 : w1 ++ sp = (pre2 ++ u1) ++ s)
          by (rewrite <- !app_assoc; exact E2).
        apply app_split_right with (c := is_space) in E3; auto.
        -- destruct E3 as [E3 _]. subst w1.
           apply all_app_inv in Hw1. destruct Hw1 as [Hp _].
           exact (word_end_not_boundary pre1 Hp Hne B2).
        -- rewrite <- (app_nil_l w1). apply word_end_stops_space; assumption.
        -- apply word_end_stops_space; assumption.
      * apply space_end_stops_word; assumption.
      * rewrite app_assoc. apply space_end_stops_word; assumption.
Qed.

(** A match that starts in front of a bounded "<label>: <number>%" ends in
    front of it. *)
Lemma pie_no_crossing pre1 pre2 lbl sp1 sp2 v sp3 post rest g :
  label lbl -> all is_space sp1 -> all is_space sp2 -> decimal v ->
  all is_space sp3 -> left_boundary (pre1 ++ pre2) lbl -> pre2 <> [] ->
  sem pie_re (pre2 ++ share_text lbl sp1 sp2 v sp3 ++ post) [] rest g ->
  exists r', rest = r' ++ share_text lbl sp1 sp2 v sp3 ++ post.
Proof.
  intros Hl H1 H2 Hv H3 B Hne S.
  apply sem_pie_inv in S.
  destruct S as (lbl' & sp1' & sp2' & v' & sp3' & E & Hl' & H1' & H2' & Hv' & H3' & _).
  assert (N' : ~ In PERCENT ((lbl' ++ sp1') ++ COLON :: sp2' ++ v' ++ sp3')).
  { apply not_in_app; [apply not_in_app|].
    - apply label_no; auto.
    - apply spaces_no; auto.
    - intros [D | D]; [discriminate|].
      revert D. apply pie_tail_no; auto; discriminate. }
  assert (N : ~ In PERCENT ((lbl ++ sp1) ++ COLON :: sp2 ++ v ++ sp3)).
  { apply not_in_app; [apply not_in_app|].
    - apply label_no; auto.
    - apply spaces_no; auto.
    - intros [D | D]; [discriminate|].
      revert D. apply pie_tail_no; auto; discriminate. }
  rewrite !share_text_app in E.
  assert (E' : pre2 ++ lbl ++ sp1 ++ COLON :: sp2 ++ v ++ sp3 ++ PERCENT :: post
               = ((lbl' ++ sp1') ++ COLON :: sp2' ++ v' ++ sp3') ++ PERCENT :: rest).
  { rewrite E. rewrite <- !app_assoc. simpl. rewrite <- !app_assoc. reflexivity. }
  clear E.
  destruct (in_dec ascii_dec PERCENT pre2) as [Hin | Hout].
  - destruct (first_occurrence _ _ Hin) as (u & u' & -> & Hu).
    rewrite <- app_assoc in E'. simpl in E'.
    apply app_split_first in E'; auto.
    destruct E' as [_ <-]. exists u'. rewrite share_text_app. reflexivity.
  - exfalso.
    assert (E2 : (pre2 ++ (lbl ++ sp1) ++ COLON :: sp2 ++ v ++ sp3) ++ PERCENT :: post
                 = ((lbl' ++ sp1') ++ COLON :: sp2' ++ v' ++ sp3') ++ PERCENT :: rest).
    { rewrite <- E'. rewrite <- !app_assoc. simpl. rewrite <- !app_assoc. reflexivity. }
    apply app_split_first in E2; auto; [|apply not_in_app; assumption].
    destruct E2 as [E2 _].
    assert (E3 : (pre2 ++ lbl ++ sp1) ++ COLON :: (sp2 ++ v ++ sp3)
                 = (lbl' ++ sp1') ++ COLON :: (sp2' ++ v' ++ sp3')).
    { rewrite <- E2. rewrite <- !app_assoc. reflexivity. }
    apply app_split_last in E3; try (apply pie_tail_no; auto; discriminate).
    destruct E3 as [E3 _].
    assert (E4 : (pre2 ++ lbl) ++ sp1 = lbl' ++ sp1')
      by (rewrite <- app_assoc; exact E3).
    apply app_split_right with (c := is_space) in E4; auto.
    + destruct E4 as [E4 _]. symmetry in E4.
      exact (@label_extension_absurd pre1 pre2 lbl lbl' Hl' Hl E4 Hne B).
    + rewrite rev_app_distr. pose proof (label_ends_in_word Hl) as L.
      destruct (rev lbl) as [|a t] eqn:R; [|exact L].
      apply (f_equal (@rev ascii)) in R. rewrite rev_involutive in R. simpl in R.
      subst lbl. exfalso. destruct Hl as [[_ Q] | (w1 & sp & w2 & Q & [_ Q1] & _)].
      * apply Q. reflexivity.
      * symmetry in Q. apply app_eq_nil in Q. destruct Q as [Q _]. contradiction.
    + apply label_ends_in_word. exact Hl'.
Qed.

(** ** The scan reaches a place that no earlier match passes *)

Lemma findall_reach r :
  (forall t rest g, match_at r t = Some (rest, g) -> length rest < length t) ->
  forall n pre s,
    length pre <= n ->
    (forall pre1 pre2 rest g,
        pre = pre1 ++ pre2 -> pre2 <> [] ->
        match_at r (pre2 ++ s) = Some (rest, g) -> exists r', rest = r' ++ s) ->
    exists before, findall r (pre ++ s) = before ++ findall r s.
Proof.
  intros Hpos. induction n as [|n IH]; intros pre s Hn H.
  - destruct pre; [|simpl in Hn; lia]. exists []. reflexivity.
  - destruct pre as [|a pre]; [exists []; reflexivity|].
    destruct (match_at r ((a :: pre) ++ s)) as [[rest g]|] eqn:M.
    + destruct (H [] (a :: pre) rest g eq_refl ltac:(discriminate) M) as (r' & ->).
      pose proof (Hpos _ _ _ M) as L.
      destruct (sem_suffix (match_at_sound _ _ M)) as (m & Em).
      rewrite app_assoc in Em. apply app_inv_tail in Em.
      assert (Hm : m <> []).
      { intros ->. simpl in Em. subst r'. lia. }
      rewrite Em in M |- *. rewrite <- app_assoc in M |- *.
      rewrite (findall_some r Hm M).
      destruct (IH r' s) as (before & Eb).
      * apply (f_equal (@length ascii)) in Em. rewrite length_app in Em.
        simpl in Em, Hn. destruct m; [contradiction|simpl in Em; lia].
      * intros p1 p2 rest' g' Ep Np Mp.
        apply (H (m ++ p1) p2 rest' g'); auto.
        rewrite Em, Ep, app_assoc. reflexivity.
      * rewrite Eb. eexists ((_, _) :: before). reflexivity.
    + simpl in M. simpl. rewrite (findall_none _ _ _ M).
      apply IH; [simpl in Hn; lia|].
      intros p1 p2 rest' g' Ep Np Mp.
      apply (H (a :: p1) p2 rest' g'); auto. rewrite Ep. reflexivity.
Qed.

Lemma pie_match_nonempty t rest g :
  match_at pie_re t = Some (rest, g) -> length rest < length t.
Proof.
  intros M. apply match_at_sound, sem_pie_inv in M.
  destruct M as (lbl & sp1 & sp2 & v & sp3 & -> & _).
  rewrite share_text_app, !length_app. simpl. rewrite !length_app. simpl. lia.
Qed.

(** A bounded "<label>: <number>%" gives the entry (label, number); the
    entries in front of it come from the text in front of it, and the scan
    goes on behind it. *)
Lemma pie_entry pre lbl sp1 sp2 v sp3 post :
  label lbl -> all is_space sp1 -> all is_space sp2 -> decimal v ->
  all is_space sp3 -> left_boundary pre lbl ->
  exists before,
    findall pie_re (pre ++ share_text lbl sp1 sp2 v sp3 ++ post)
    = before ++ (lbl, v) :: findall pie_re post.
Proof.
  intros Hl H1 H2 Hv H3 B.
  destruct (@findall_reach pie_re pie_match_nonempty (length pre) pre
              (share_text lbl sp1 sp2 v sp3 ++ post) (le_n _))
    as (before & E).
  - intros pre1 pre2 rest g Ep Np M. subst pre.
    apply match_at_sound in M.
    eapply pie_no_crossing; eauto.
  - exists before. rewrite E. f_equal.
    pose proof (sem_pie_intro post Hl H1 H2 Hv H3) as S.
    destruct (match_at pie_re (share_text lbl sp1 sp2 v sp3 ++ post))
      as [[rest g]|] eqn:M.
    + pose proof (match_at_sound _ _ M) as S'.
      destruct (@pie_match_unique lbl sp1 sp2 v sp3 post rest g Hl H1 H2 Hv H3 S')
        as [-> ->].
      assert (Hne : share_text lbl sp1 sp2 v sp3 <> []).
      { unfold share_text. destruct lbl; [|discriminate].
        destruct Hl as [[_ Q] | (w1 & sp & w2 & Q & [_ Q1] & _)].
        - contradiction.
        - symmetry in Q. apply app_eq_nil in Q. destruct Q as [Q _]. contradiction. }
      rewrite (findall_some _ Hne M). reflexivity.
    + exfalso. exact (match_at_complete S M).
Qed.

Lemma findall_skip r s : forall pre,
    (forall pre1 pre2, pre = pre1 ++ pre2 -> pre2 <> [] ->
                       match_at r (pre2 ++ s) = None) ->
    findall r (pre ++ s) = findall r s.
Proof.
  induction pre as [|a pre IH]; intros H; [reflexivity|].
  simpl. rewrite findall_none.
  - apply IH. intros p1 p2 E N. apply (H (a :: p1) p2); [rewrite E; reflexivity|exact N].
  - apply (H [] (a :: pre)); [reflexivity|discriminate].
Qed.

(** Without a percent sign in front, the entry is the first. *)
Lemma pie_entry_first pre lbl sp1 sp2 v sp3 post :
  label lbl -> all is_space sp1 -> all is_space sp2 -> decimal v ->
  all is_space sp3 -> left_boundary pre lbl -> ~ In PERCENT pre ->
  findall pie_re (pre ++ share_text lbl sp1 sp2 v sp3 ++ post)
  = (lbl, v) :: findall pie_re post.
Proof.
  intros Hl H1 H2 Hv H3 B Hp.
  rewrite findall_skip.
  - destruct (@pie_entry [] lbl sp1 sp2 v sp3 post Hl H1 H2 Hv H3) as (before & E).
    + split; intros _; exact I.
    + simpl in E.
      pose proof (sem_pie_intro post Hl H1 H2 Hv H3) as S.
      destruct (match_at pie_re (share_text lbl sp1 sp2 v sp3 ++ post))
        as [[rest g]|] eqn:M; [|exfalso; exact (match_at_complete S M)].
      pose proof (match_at_sound _ _ M) as S'.
      destruct (@pie_match_unique lbl sp1 sp2 v sp3 post rest g Hl H1 H2 Hv H3 S')
        as [-> ->].
      assert (Hne : share_text lbl sp1 sp2 v sp3 <> []).
      { unfold share_text. intros Q. apply app_eq_nil in Q. destruct Q as [_ Q].
        apply app_eq_nil in Q. destruct Q as [_ Q]. discriminate. }
      rewrite (findall_some _ Hne M). reflexivity.
  - intros pre1 pre2 -> N.
    destruct (match_at pie_re (pre2 ++ share_text lbl sp1 sp2 v sp3 ++ post))
      as [[rest g]|] eqn:M; [exfalso|reflexivity].
    apply match_at_sound in M.
    destruct (@pie_no_crossing pre1 pre2 lbl sp1 sp2 v sp3 post rest g
                Hl H1 H2 Hv H3 B N M) as (r' & ->).
    apply sem_pie_inv in M.
    destruct M as (lbl' & sp1' & sp2' & v' & sp3' & E & _).
    rewrite (app_assoc _ r') in E.
    apply app_inv_tail in E. apply Hp. apply in_or_app. right.
    rewrite E. apply in_or_app. left. unfold share_text.
    apply in_or_app. right. apply in_or_app. right. right.
    apply in_or_app. right. apply in_or_app. right. apply in_or_app. right.
    left. reflexivity.
Qed.

Lemma two_words_label w2 s2 w3 :
  one_word w2 -> all is_space s2 -> s2 <> [] -> one_word w3 ->
  two_words (w2 ++ s2 ++ w3).
Proof. intros. exists w2, s2, w3. auto. Qed.

Lemma one_word_not_two w : one_word w -> ~ two_words w.
Proof.
  intros [Hw _] (w1 & sp & w2 & -> & _ & Hs & Ns & _).
  apply all_app_inv in Hw. destruct Hw as [_ Hw].
  apply all_app_inv in Hw. destruct Hw as [Hw _].
  exact (space_run_not_words Hs Ns Hw).
Qed.

Lemma two_words_not_one w : two_words w -> ~ one_word w.
Proof. intros H1 H2. exact (one_word_not_two H2 H1). Qed.

(** C10.  In front of "<label>: <number>%" with a label of three words the
    entry of the breakdown has the last two words as its label: the scan
    finds no match that starts at the first word.  North East Region: 42%
    yields East Region. *)
Theorem label_keeps_last_two_words
        (pre w1 s1 w2 s2 w3 sp1 sp2 v sp3 post : str) :
  one_word w1 -> all is_space s1 -> s1 <> [] ->
  one_word w2 -> all is_space s2 -> s2 <> [] -> one_word w3 ->
  all is_space sp1 -> all is_space sp2 -> decimal v -> all is_space sp3 ->
  (exists before,
      snd (extract_numerical_data
             (pre ++ w1 ++ s1 ++ share_text (w2 ++ s2 ++ w3) sp1 sp2 v sp3 ++ post))
      = before ++ (w2 ++ s2 ++ w3, v) :: snd (extract_numerical_data post))
  /\ (~ In PERCENT pre ->
      snd (extract_numerical_data
             (pre ++ w1 ++ s1 ++ share_text (w2 ++ s2 ++ w3) sp1 sp2 v sp3 ++ post))
      = (w2 ++ s2 ++ w3, v) :: snd (extract_numerical_data post))
  /\ snd (extract_numerical_data (s2l "North East Region: 42%"))
     = [(s2l "East Region", s2l "42")].
Proof.
  intros W1 S1 N1 W2 S2 N2 W3 H1 H2 Hv H3.
  pose proof (two_words_label W2 S2 N2 W3) as T.
  assert (B : left_boundary ((pre ++ w1) ++ s1) (w2 ++ s2 ++ w3)).
  { split.
    - intros _. apply space_end_stops_word; assumption.
    - intros O. exfalso. exact (two_words_not_one T O). }
  cbn [extract_numerical_data snd].
  replace (pre ++ w1 ++ s1 ++ share_text (w2 ++ s2 ++ w3) sp1 sp2 v sp3 ++ post)
    with (((pre ++ w1) ++ s1) ++ share_text (w2 ++ s2 ++ w3) sp1 sp2 v sp3 ++ post)
    by (rewrite <- !app_assoc; reflexivity).
  split; [|split].
  - apply pie_entry; auto. right. exact T.
  - intros Hp. apply pie_entry_first; auto.
    + right. exact T.
    + apply not_in_app; [apply not_in_app|].
      * exact Hp.
      * apply (@all_not_in is_word); [apply W1|reflexivity].
      * apply (@all_not_in is_space); [exact S1|reflexivity].
  - reflexivity.
Qed.

Lemma label_keeps_last_two_words_witness :
  one_word (s2l "North") /\ one_word (s2l "East") /\ one_word (s2l "Region")
  /\ decimal (s2l "42")
  /\ snd (extract_numerical_data
            ([] ++ s2l "North" ++ [SP]
                ++ share_text (s2l "East" ++ [SP] ++ s2l "Region") [] [SP]
                              (s2l "42") [] ++ []))
     = [(s2l "East" ++ [SP] ++ s2l "Region", s2l "42")].
Proof.
  assert (W1 : one_word (s2l "North"))
    by (split; [apply all_forallb; reflexivity|discriminate]).
  assert (W2 : one_word (s2l "East"))
    by (split; [apply all_forallb; reflexivity|discriminate]).
  assert (W3 : one_word (s2l "Region"))
    by (split; [apply all_forallb; reflexivity|discriminate]).
  assert (Hv : decimal (s2l "42")) by (apply decimal_int; [discriminate|reflexivity]).
  assert (Sp : all is_space [SP]) by (apply all_forallb; reflexivity).
  assert (Nil : all is_space []) by constructor.
  split; [exact W1|]. split; [exact W2|]. split; [exact W3|]. split; [exact Hv|].
  destruct (@label_keeps_last_two_words [] (s2l "North") [SP] (s2l "East") [SP]
              (s2l "Region") [] [SP] (s2l "42") [] []
              W1 Sp ltac:(discriminate) W2 Sp ltac:(discriminate) W3
              Nil Sp Hv Nil) as (_ & H & _).
  rewrite H; [reflexivity|]. intros [].
Defined.





(** ** The year/value series of a text *)

Lemma run_split c : forall s : str,
    exists w rest, s = w ++ rest /\ all c w /\ stops c rest.
Proof.
  induction s as [|a s (w & rest & E & Hw & Hr)].
  - exists [], []. repeat split; constructor.
  - destruct (c a) eqn:Ca.
    + exists (a :: w), rest. subst s. repeat split; auto. constructor; assumption.
    + exists [], (a :: s). repeat split; [constructor|exact Ca].
Qed.

Lemma is_dot_eq a : is_dot a = true -> a = DOT.
Proof. by_cases_on a. Qed.

Lemma decimal_head v :
  decimal v -> exists d v', v = d :: v' /\ is_digit d = true.
Proof.
  intros (i & Hi & Hne & Hv).
  destruct i as [|d i]; [contradiction|]. inversion Hi; subst.
  destruct Hv as [-> | (f & _ & _ & ->)].
  - exists d, i. auto.
  - exists d, (i ++ DOT :: f). auto.
Qed.

(** The first match of a scan: no attempt succeeds in front of it, and the
    scan goes on behind it. *)
Lemma findall_first r :
  (forall t rest g, match_at r t = Some (rest, g) -> length rest < length t) ->
  forall text,
    findall r text <> [] ->
    exists pre t rest g,
      text = pre ++ t /\ match_at r t = Some (rest, g)
      /\ (forall p1 p2, pre = p1 ++ p2 -> p2 <> [] -> match_at r (p2 ++ t) = None)
      /\ findall r text = (group 1 g, group 2 g) :: findall r rest.
Proof.
  intros Hpos. induction text as [|a s IH]; intros Hne.
  - exfalso. apply Hne. unfold findall. rewrite scan_eq.
    destruct (match_at r []) as [[rest g]|] eqn:M; [|reflexivity].
    apply Hpos in M. simpl in M. lia.
  - destruct (match_at r (a :: s)) as [[rest g]|] eqn:M.
    + exists [], (a :: s), rest, g.
      split; [reflexivity|]. split; [exact M|]. split.
      * intros p1 p2 E N. symmetry in E. apply app_eq_nil in E.
        destruct E as [_ ->]. contradiction.
      * pose proof (Hpos _ _ _ M) as L.
        destruct (sem_suffix (match_at_sound _ _ M)) as (m & Em).
        assert (Hm : m <> []).
        { intros ->. simpl in Em. subst rest. lia. }
        rewrite Em in M |- *. apply (findall_some r Hm M).
    + rewrite (findall_none _ _ _ M) in Hne |- *.
      destruct (IH Hne) as (pre & t & rest & g & -> & Mt & Hn & E).
      exists (a :: pre), t, rest, g.
      split; [reflexivity|]. split; [exact Mt|]. split; [|exact E].
      intros p1 p2 Ep N. destruct p1 as [|b p1].
      * simpl in Ep. subst p2. exact M.
      * simpl in Ep. inversion Ep; subst. apply (Hn p1 p2); auto.
Qed.

(** A digit-free run in front of a digit is the beginning of any gap that
    reaches the digit. *)
Lemma gap_to_first_digit d : forall gap r gap1 more : str,
    gap ++ r = gap1 ++ d :: more -> all not_digit gap -> is_digit d = true ->
    exists z, gap1 = gap ++ z /\ r = z ++ d :: more.
Proof.
  induction gap as [|a gap IH]; intros r gap1 more E Hg Hd.
  - exists gap1. auto.
  - inversion Hg as [|? ? Na Hg']; subst.
    destruct gap1 as [|b gap1]; simpl in E; inversion E; subst.
    + unfold not_digit in Na. rewrite Hd in Na. discriminate.
    + destruct (IH r gap1 more H1 Hg' Hd) as (z & -> & ->).
      exists z. auto.
Qed.

(** At a digit a whole number token begins. *)
Lemma number_token d s :
  is_digit d = true ->
  exists v rest, d :: s = v ++ rest /\ decimal v /\ number_ends v rest.
Proof.
  intros Hd.
  destruct (run_split is_digit (d :: s)) as (i & r1 & E & Hi & Hr1).
  assert (Hne : i <> []).
  { intros ->. simpl in E. subst r1. simpl in Hr1. congruence. }
  assert (plain : no_fraction r1 ->
                  exists v rest, d :: s = v ++ rest /\ decimal v /\ number_ends v rest).
  { intros Hn. exists i, r1. split; [exact E|]. split.
    - exists i. auto.
    - split; auto. }
  destruct r1 as [|a [|b r2]]; try (apply plain; exact I).
  destruct (is_dot a) eqn:Da; [|apply plain; simpl; congruence].
  destruct (is_digit b) eqn:Db; [|apply plain; simpl; auto].
  apply is_dot_eq in Da. subst a.
  destruct (run_split is_digit (b :: r2)) as (f & r3 & Ef & Hf & Hr3).
  assert (Hfne : f <> []).
  { intros ->. simpl in Ef. subst r3. simpl in Hr3. congruence. }
  exists (i ++ DOT :: f), r3. split; [|split].
  - rewrite E, Ef, <- app_assoc. reflexivity.
  - exists i. split; [exact Hi|]. split; [exact Hne|]. right. exists f. auto.
  - split; [exact Hr3|]. intros Hall. exfalso.
    apply all_app_inv in Hall. destruct Hall as [_ Hall].
    inversion Hall; subst. discriminate.
Qed.

(** The match the search order picks at a place: the gap ends at the first
    digit behind the year, and the number is the whole token there. *)
Lemma line_match_shape t rest g :
  match_at line_re t = Some (rest, g) ->
  exists y gap v,
    t = y ++ gap ++ v ++ rest /\ year_token y /\ all is_any gap
    /\ all not_digit gap /\ decimal v /\ number_ends v rest
    /\ g = [(2, v); (1, y)].
Proof.
  intros M. pose proof (match_at_sound _ _ M) as S. apply sem_line_inv in S.
  destruct S as (y & gap1 & v1 & E & Hy & Hg1 & Hv1 & _).
  destruct (decimal_head Hv1) as (d1 & v1' & -> & Hd1).
  destruct (run_split not_digit (gap1 ++ (d1 :: v1') ++ rest))
    as (gap & r & Er & Hgap & Hr).
  symmetry in Er. change ((d1 :: v1') ++ rest) with (d1 :: v1' ++ rest) in Er.
  destruct (@gap_to_first_digit _ _ _ _ _ Er Hgap Hd1) as (z & Eg & Ez).
  assert (Hany : all is_any gap).
  { rewrite Eg in Hg1. apply all_app_inv in Hg1. tauto. }
  assert (exists d r', r = d :: r' /\ is_digit d = true) as (d & r' & -> & Hd).
  { destruct r as [|d r'].
    - destruct z; discriminate.
    - exists d, r'. split; [reflexivity|]. simpl in Hr. unfold not_digit in Hr.
      destruct (is_digit d); [reflexivity|discriminate]. }
  destruct (@number_token d r' Hd) as (v & rest' & Ev & Hv & He).
  assert (Et : t = y ++ gap ++ v ++ rest').
  { rewrite E. f_equal. change ((d1 :: v1') ++ rest) with (d1 :: v1' ++ rest).
    rewrite <- Er, Ev. reflexivity. }
  assert (M' : match_at line_re t = Some (rest', [(2, v); (1, y)])).
  { rewrite Et. apply line_match_at; auto.
    apply Forall_forall. intros a Ha. split.
    - exact (proj1 (Forall_forall _ _) Hany a Ha).
    - pose proof (proj1 (Forall_forall _ _) Hgap a Ha) as N.
      unfold not_digit in N. destruct (is_digit a); [discriminate|reflexivity]. }
  rewrite M in M'. inversion M'; subst rest' g.
  exists y, gap, v. repeat split; auto; try apply Hy; try apply He.
Qed.

Lemma line_match_here_complete t :
  line_match_here t -> match_at line_re t <> None.
Proof.
  intros (y & gap & v & rest & -> & Hy & Hg & Hv).
  exact (match_at_complete (sem_line_intro rest Hy Hg Hv)).
Qed.

Lemma line_match_starts_with_digit a s :
  is_digit a = false -> match_at line_re (a :: s) = None.
Proof.
  intros Ha. destruct (match_at line_re (a :: s)) as [[rest g]|] eqn:M;
    [|reflexivity].
  exfalso. apply (@line_match_shape _ _ _) in M.
  destruct M as (y & gap & v & E & Hy & _).
  destruct (year_token_inv Hy) as (b & ? & ? & ? & -> & Hb & _).
  simpl in E. inversion E; subst. congruence.
Qed.

Lemma line_series_first (text : str) :
  line_occurrence text ->
  exists pre y gap v rest,
    text = pre ++ y ++ gap ++ v ++ rest
    /\ year_token y /\ all is_any gap /\ all not_digit gap
    /\ decimal v /\ number_ends v rest
    /\ (forall p1 p2, pre = p1 ++ p2 -> p2 <> [] ->
        ~ line_match_here (p2 ++ y ++ gap ++ v ++ rest))
    /\ findall line_re text = (y, v) :: findall line_re rest.
Proof.
  intros Ho.
  assert (Hne : findall line_re text <> []).
  { intros E. apply findall_nil_iff in E. apply E. apply occurs_line_iff. exact Ho. }
  destruct (@findall_first line_re line_match_nonempty text Hne)
    as (pre & t & rest & g & -> & M & Hn & E).
  destruct (@line_match_shape _ _ _ M) as (y & gap & v & -> & Hy & Hg & Hd & Hv & He & ->).
  exists pre, y, gap, v, rest. repeat split; auto; try apply Hy; try apply He.
  intros p1 p2 Ep N H. apply (line_match_here_complete H). apply (Hn p1 p2); auto.
Qed.

Lemma line_series_at (pre y gap v post : str) :
  all not_digit pre -> year_token y -> all is_any gap -> all not_digit gap ->
  decimal v -> number_ends v post ->
  findall line_re (pre ++ y ++ gap ++ v ++ post) = (y, v) :: findall line_re post.
Proof.
  intros Hp Hy Hg Hd Hv He.
  rewrite findall_skip.
  - assert (M : match_at line_re (y ++ gap ++ v ++ post)
                = Some (post, [(2, v); (1, y)])).
    { apply line_match_at; auto.
      apply Forall_forall. intros a Ha. split.
      - exact (proj1 (Forall_forall _ _) Hg a Ha).
      - pose proof (proj1 (Forall_forall _ _) Hd a Ha) as N.
        unfold not_digit in N. destruct (is_digit a); [discriminate|reflexivity]. }
    rewrite !app_assoc in M |- *.
    assert (Hne : (y ++ gap) ++ v <> [])
      by (apply app_nonempty_l, app_nonempty_l, year_token_nonempty; assumption).
    rewrite (findall_some _ Hne M). reflexivity.
  - intros p1 p2 E N. destruct p2 as [|a p2]; [contradiction|].
    apply line_match_starts_with_digit.
    rewrite E in Hp. apply all_app_inv in Hp. destruct Hp as [_ Hp].
    inversion Hp; subst. unfold not_digit in *.
    destruct (is_digit a); [discriminate|reflexivity].
Qed.

(** C2.  The extracted series holds one pair for each match of the
    year/value pattern, matches being taken from the left, each search
    starting where the match before ended.  Every pair is a match: four
    digits, a gap without line feed, a number, in this order in the text.
    The series is empty exactly when the text holds no match.  When it holds
    one, the first pair is the leftmost match, with the gap ending at the
    first digit behind the four and the number taken whole, and the rest of
    the series is the series of the text behind that number.  Any four
    digits serve as the year: behind text without digit, four digits, a gap
    without digit and a whole number give the pair of the two, whatever the
    digits are.  "In 2024 revenue reached 5 million, in 2025 it was 7" gives
    the pairs (2024, 5) and (2025, 7). *)
Theorem line_series_one_pair_per_match (text : str) :
  (forall y v,
      In (y, v) (fst (extract_numerical_data text)) ->
      year_token y /\ decimal v /\
      exists pre gap post,
        text = pre ++ y ++ gap ++ v ++ post /\ all is_any gap)
  /\ (fst (extract_numerical_data text) = [] <-> ~ line_occurrence text)
  /\ (line_occurrence text ->
      exists pre y gap v rest,
        text = pre ++ y ++ gap ++ v ++ rest
        /\ year_token y /\ all is_any gap /\ all not_digit gap
        /\ decimal v /\ number_ends v rest
        /\ (forall p1 p2, pre = p1 ++ p2 -> p2 <> [] ->
            ~ line_match_here (p2 ++ y ++ gap ++ v ++ rest))
        /\ fst (extract_numerical_data text)
           = (y, v) :: fst (extract_numerical_data rest))
  /\ (forall pre y gap v post,
        text = pre ++ y ++ gap ++ v ++ post ->
        all not_digit pre -> year_token y -> all is_any gap ->
        all not_digit gap -> decimal v -> number_ends v post ->
        fst (extract_numerical_data text)
        = (y, v) :: fst (extract_numerical_data post))
  /\ fst (extract_numerical_data two_years_text)
     = [(s2l "2024", s2l "5"); (s2l "2025", s2l "7")].
Proof.
  cbn [extract_numerical_data fst]. split; [|split; [|split; [|split]]].
  - intros y v H. apply findall_in in H.
    destruct H as (pre & t & rest & g & -> & M & -> & ->).
    apply match_at_sound, sem_line_inv in M.
    destruct M as (y1 & gap1 & v1 & -> & Hy1 & Hg1 & Hv1 & ->).
    cbn. repeat split; try apply Hy1; auto.
    exists pre, gap1, rest. auto.
  - rewrite findall_nil_iff, occurs_line_iff. reflexivity.
  - apply line_series_first.
  - intros pre y gap v post ->. apply line_series_at.
  - vm_compute. reflexivity.
Qed.

Lemma line_series_one_pair_per_match_witness :
  fst (extract_numerical_data
         (s2l "Sold " ++ s2l "0000" ++ s2l " units, about "
              ++ (s2l "12" ++ DOT :: s2l "5") ++ s2l " tons"))
  = (s2l "0000", s2l "12" ++ DOT :: s2l "5")
      :: fst (extract_numerical_data (s2l " tons")).
Proof.
  destruct (@line_series_one_pair_per_match
              (s2l "Sold " ++ s2l "0000" ++ s2l " units, about "
                   ++ (s2l "12" ++ DOT :: s2l "5") ++ s2l " tons"))
    as (_ & _ & _ & H & _).
  apply (H (s2l "Sold ") (s2l "0000") (s2l " units, about ")
           (s2l "12" ++ DOT :: s2l "5") (s2l " tons")).
  - reflexivity.
  - apply all_forallb. reflexivity.
  - apply year_token_dec. reflexivity.
  - apply all_forallb. reflexivity.
  - apply all_forallb. reflexivity.
  - apply decimal_frac; try discriminate; reflexivity.
  - split; [reflexivity|]. intros _ D. vm_compute in D. discriminate.
Defined.

(* ================================================================== *)
(** * Further properties of the code *)

(** ** What the extracted entries look like *)

Lemma label_nonempty lbl : label lbl -> 1 <= length lbl.
Proof.
  intros [[_ N] | (w1 & sp & w2 & -> & [_ N] & _)].
  - apply nonempty_length_pos. exact N.
  - rewrite length_app. apply nonempty_length_pos in N. lia.
Qed.

Lemma decimal_nonempty v : decimal v -> 1 <= length v.
Proof.
  intros (i & _ & N & [-> | (f & _ & _ & ->)]).
  - apply nonempty_length_pos. exact N.
  - rewrite length_app. apply nonempty_length_pos in N. lia.
Qed.

Lemma pie_entries_shape (text lbl v : str) :
  In (lbl, v) (snd (extract_numerical_data text)) -> label lbl /\ decimal v.
Proof.
  cbn [extract_numerical_data snd]. intros H. apply findall_in in H.
  destruct H as (pre & t & rest & g & -> & M & -> & ->).
  apply match_at_sound, sem_pie_inv in M.
  destruct M as (lbl & sp1 & sp2 & v & sp3 & -> & Hl & _ & _ & Hv & _ & ->).
  cbn. auto.
Qed.

(** Every entry of the breakdown is a label of one or two words and a
    number, standing in the text as "label : number %" with optional white
    space around the colon and in front of the percent sign. *)
Theorem pie_entries_are_label_and_number (text lbl v : str) :
  In (lbl, v) (snd (extract_numerical_data text)) ->
  label lbl /\ decimal v /\
  exists pre sp1 sp2 sp3 post,
    text = pre ++ share_text lbl sp1 sp2 v sp3 ++ post
    /\ all is_space sp1 /\ all is_space sp2 /\ all is_space sp3.
Proof.
  cbn [extract_numerical_data snd]. intros H. apply findall_in in H.
  destruct H as (pre & t & rest & g & -> & M & -> & ->).
  apply match_at_sound, sem_pie_inv in M.
  destruct M as (lbl & sp1 & sp2 & v & sp3 & -> & Hl & H1 & H2 & Hv & H3 & ->).
  cbn. split; [exact Hl|]. split; [exact Hv|].
  exists pre, sp1, sp2, sp3, rest. auto.
Qed.

Lemma pie_entries_are_label_and_number_witness :
  In (s2l "Hotels", s2l "60")
     (snd (extract_numerical_data (s2l "In 2024 sales reach 5. Hotels: 60%")))
  /\ label (s2l "Hotels").
Proof.
  assert (H : In (s2l "Hotels", s2l "60")
                 (snd (extract_numerical_data
                         (s2l "In 2024 sales reach 5. Hotels: 60%"))))
    by (left; reflexivity).
  split; [exact H|].
  exact (proj1 (@pie_entries_are_label_and_number
                  (s2l "In 2024 sales reach 5. Hotels: 60%")
                  (s2l "Hotels") (s2l "60") H)).
Defined.

(** ** How many entries a text can give *)

Lemma scan_length_bound r m :
  1 <= m ->
  (forall t rest g, match_at r t = Some (rest, g) -> length rest + m <= length t) ->
  forall n s, length s <= n -> m * length (scan r s 0) <= length s.
Proof.
  intros Hm Hmin. induction n as [|n IH]; intros s Hn.
  - destruct s; [|simpl in Hn; lia].
    rewrite scan_eq. destruct (match_at r []) as [[rest g]|] eqn:M.
    + apply Hmin in M. simpl in M. lia.
    + simpl. lia.
  - destruct (match_at r s) as [[rest g]|] eqn:M.
    + pose proof (Hmin _ _ _ M) as L.
      destruct (sem_suffix (match_at_sound _ _ M)) as (w & ->).
      assert (Hw : w <> []).
      { intros ->. simpl in L. lia. }
      rewrite (scan_some r Hw M). rewrite length_app in *.
      specialize (IH rest ltac:(destruct w; [contradiction|simpl in Hn; lia])).
      simpl length. lia.
    + destruct s as [|a s].
      * rewrite scan_eq, M. simpl. lia.
      * rewrite (scan_none _ _ _ M). specialize (IH s ltac:(simpl in Hn; lia)).
        simpl length. lia.
Qed.

Lemma line_match_min t rest g :
  match_at line_re t = Some (rest, g) -> length rest + 5 <= length t.
Proof.
  intros M. apply match_at_sound, sem_line_inv in M.
  destruct M as (y & gap & v & -> & [Ly _] & _ & Hv & _).
  apply decimal_nonempty in Hv. rewrite !length_app. lia.
Qed.

Lemma pie_match_min t rest g :
  match_at pie_re t = Some (rest, g) -> length rest + 4 <= length t.
Proof.
  intros M. apply match_at_sound, sem_pie_inv in M.
  destruct M as (lbl & sp1 & sp2 & v & sp3 & -> & Hl & _ & _ & Hv & _).
  apply label_nonempty in Hl. apply decimal_nonempty in Hv.
  rewrite share_text_app, !length_app. simpl. rewrite !length_app. simpl. lia.
Qed.

(** Matches do not overlap: a pair of the series takes at least five
    characters of the text and an entry of the breakdown at least four. *)
Theorem entry_counts_bounded_by_text (text : str) :
  5 * length (fst (extract_numerical_data text)) <= length text
  /\ 4 * length (snd (extract_numerical_data text)) <= length text.
Proof.
  cbn [extract_numerical_data fst snd]. unfold findall.
  rewrite !length_map. split.
  - apply (@scan_length_bound line_re 5 ltac:(lia) line_match_min (length text)).
    lia.
  - apply (@scan_length_bound pie_re 4 ltac:(lia) pie_match_min (length text)).
    lia.
Qed.

(** ** Texts that cannot give a chart *)

Lemma decimal_has_digit v : decimal v -> exists d, In d v /\ is_digit d = true.
Proof.
  intros (i & Hi & N & H). destruct (all_first Hi N) as (a & t & -> & Ha).
  exists a. split; [|exact Ha].
  destruct H as [-> | (f & _ & _ & ->)]; left; reflexivity.
Qed.

(** A narrative without any digit gives neither series nor breakdown, and
    no chart is built. *)
Theorem no_digit_no_chart (sv : sort_values) (text : str) :
  all (fun a => negb (is_digit a)) text ->
  extract_numerical_data text = ([], [])
  /\ create_charts sv (fst (extract_numerical_data text))
                   (snd (extract_numerical_data text)) = Ok [].
Proof.
  intros H.
  assert (D : forall v pre post, decimal v -> text <> pre ++ v ++ post).
  { intros v pre post Hv E. destruct (decimal_has_digit Hv) as (d & Hd & Dd).
    pose proof (proj1 (Forall_forall _ _) H d) as N. simpl in N.
    rewrite Dd in N. discriminate N. rewrite E.
    apply in_or_app. right. apply in_or_app. left. exact Hd. }
  assert (L : findall line_re text = []).
  { apply findall_nil_iff. intros (pre & t & rest & g & E & S).
    apply sem_line_inv in S. destruct S as (y & gap & v & -> & _ & _ & Hv & _).
    apply (D v (pre ++ y ++ gap) rest Hv). rewrite E, <- !app_assoc. reflexivity. }
  assert (P : findall pie_re text = []).
  { apply findall_nil_iff. intros (pre & t & rest & g & E & S).
    apply sem_pie_inv in S.
    destruct S as (lbl & sp1 & sp2 & v & sp3 & -> & _ & _ & _ & Hv & _).
    apply (D v (pre ++ lbl ++ sp1 ++ COLON :: sp2) (sp3 ++ PERCENT :: rest) Hv).
    rewrite E, share_text_app, <- !app_assoc. reflexivity. }
  unfold extract_numerical_data. rewrite L, P. split; reflexivity.
Qed.

Lemma no_digit_no_chart_witness :
  all (fun a => negb (is_digit a)) (s2l "Tourism: strong; hotels: many %")
  /\ extract_numerical_data (s2l "Tourism: strong; hotels: many %") = ([], []).
Proof.
  assert (H : all (fun a => negb (is_digit a)) (s2l "Tourism: strong; hotels: many %"))
    by (apply all_forallb; reflexivity).
  split; [exact H|].
  exact (proj1 (@no_digit_no_chart stable_sort_values _ H)).
Defined.

(** A breakdown entry needs a colon and a percent sign in the text. *)
Theorem pie_needs_colon_and_percent (text : str) :
  ~ In COLON text \/ ~ In PERCENT text ->
  snd (extract_numerical_data text) = [].
Proof.
  intros H. cbn [extract_numerical_data snd].
  apply findall_nil_iff. intros (pre & t & rest & g & E & S).
  apply sem_pie_inv in S.
  destruct S as (lbl & sp1 & sp2 & v & sp3 & -> & _).
  rewrite share_text_app in E. destruct H as [H | H]; apply H; rewrite E.
  - apply in_or_app. right. apply in_or_app. right. apply in_or_app. right.
    left. reflexivity.
  - apply in_or_app. right. apply in_or_app. right. apply in_or_app. right.
    right. apply in_or_app. right. apply in_or_app. right. apply in_or_app.
    right. left. reflexivity.
Qed.

Lemma pie_needs_colon_and_percent_witness :
  ~ In PERCENT (s2l "Hotels: 60 percent of 2024 revenue")
  /\ snd (extract_numerical_data (s2l "Hotels: 60 percent of 2024 revenue")) = [].
Proof.
  assert (H : ~ In PERCENT (s2l "Hotels: 60 percent of 2024 revenue")).
  { apply (@all_not_in (fun a => negb (is_percent a))).
    - apply all_forallb. reflexivity.
    - reflexivity. }
  split; [exact H|].
  exact (@pie_needs_colon_and_percent _ (or_intror H)).
Defined.

(** ** The charts *)

Lemma create_charts_cases sv line_data pie_data charts c :
  create_charts sv line_data pie_data = Ok charts ->
  In c charts ->
  (line_data <> [] /\ c = line_chart (sorted_by_year sv (data_frame line_data)))
  \/ (pie_data <> []
      /\ c = Pie (map fst pie_data)
                 (map (fun item => to_float (snd item)) pie_data) "Market Share").
Proof.
  rewrite create_charts_eq.
  destruct (truthy_list line_data && negb (columns_in_range line_data));
    [discriminate|].
  intros E. injection E as <-. unfold charts_of, pie_chart.
  destruct line_data as [|p l], pie_data as [|q m]; simpl; intros H.
  - contradiction.
  - destruct H as [<- | []]. right. split; [discriminate|reflexivity].
  - destruct H as [<- | []]. left. split; [discriminate|reflexivity].
  - destruct H as [<- | [<- | []]].
    + left. split; [discriminate|reflexivity].
    + right. split; [discriminate|reflexivity].
Qed.

(** The line chart has one point per extracted pair and the pie chart one
    slice per entry, labels in order of appearance: nothing is dropped or
    merged. *)
Theorem chart_sizes (sv : sort_values) (line_data pie_data : list (str * str))
        (charts : list chart) (c : chart) :
  create_charts sv line_data pie_data = Ok charts ->
  In c charts ->
  match c with
  | Scatter x y _ _ _ _ =>
      length x = length line_data /\ length y = length line_data
  | Pie labels values _ =>
      labels = map fst pie_data /\ length values = length pie_data
  end.
Proof.
  intros C H. apply (@create_charts_cases _ _ _ _ _ C) in H.
  destruct H as [[_ ->] | [_ ->]].
  - unfold line_chart. rewrite !length_map.
    rewrite <- (Permutation_length (sort_values_perm sv (data_frame line_data))).
    unfold data_frame. rewrite length_map. auto.
  - rewrite length_map. auto.
Qed.

Lemma chart_sizes_witness :
  create_charts stable_sort_values
                [(s2l "2021", s2l "1"); (s2l "2021", s2l "2")] []
  = Ok [line_chart [(2021%Z, 1%Q); (2021%Z, 2%Q)]]
  /\ length [2021%Z; 2021%Z] = 2.
Proof.
  assert (C : create_charts stable_sort_values
                [(s2l "2021", s2l "1"); (s2l "2021", s2l "2")] []
              = Ok [line_chart [(2021%Z, 1%Q); (2021%Z, 2%Q)]])
    by reflexivity.
  split; [exact C|].
  exact (proj1 (@chart_sizes stable_sort_values _ _ _ _ C (or_introl eq_refl))).
Defined.

(** ** Numbers on the charts *)

Lemma digit_val_range a : is_digit a = true -> (0 <= digit_val a <= 9)%Z.
Proof.
  unfold is_digit, in_range, digit_val. intros H.
  apply andb_prop in H. destruct H as [H1 H2].
  apply Nat.leb_le in H1, H2. lia.
Qed.

Lemma digit_not_dot a : is_digit a = true -> is_dot a = false.
Proof. by_cases_on a. Qed.

Lemma fold_digits_nonneg s : forall acc,
    all is_digit s -> (0 <= acc)%Z ->
    (0 <= fold_left (fun acc c => 10 * acc + digit_val c) s acc)%Z.
Proof.
  induction s as [|a s IH]; intros acc H Ha; cbn [fold_left]; [exact Ha|].
  inversion H as [|? ? Hd Hs]; subst. apply IH; [assumption|].
  pose proof (digit_val_range _ Hd). lia.
Qed.

Lemma int_of_digits_nonneg s : all is_digit s -> (0 <= int_of_digits s)%Z.
Proof. intros H. apply fold_digits_nonneg; [exact H|lia]. Qed.

Lemma year_in_range y : year_token y -> (0 <= to_int y <= 9999)%Z.
Proof.
  intros Hy. destruct (year_token_inv Hy) as (a & b & c & d & -> & Ha & Hb & Hc & Hd).
  apply digit_val_range in Ha, Hb, Hc, Hd.
  unfold to_int, int_of_digits. cbn [fold_left]. lia.
Qed.

Lemma split_dot_digits i : all is_digit i -> split_dot i = (i, []).
Proof.
  induction 1 as [|a i Ha _ IH]; [reflexivity|].
  simpl. rewrite (digit_not_dot _ Ha), IH. reflexivity.
Qed.

Lemma split_dot_frac i f : all is_digit i -> split_dot (i ++ DOT :: f) = (i, f).
Proof.
  induction 1 as [|a i Ha _ IH]; [reflexivity|].
  simpl. rewrite (digit_not_dot _ Ha), IH. reflexivity.
Qed.

Lemma to_float_nonneg v : decimal v -> (0 <= to_float v)%Q.
Proof.
  intros (i & Hi & _ & H). unfold to_float.
  assert (P : forall f, all is_digit f ->
                (0 <= Qred (inject_Z (int_of_digits i)
                            + Qmake (int_of_digits f)
                                    (Pos.pow 10 (Pos.of_nat (length f)))))%Q).
  { intros f Hf. rewrite Qred_correct.
    apply int_of_digits_nonneg in Hi, Hf.
    replace 0%Q with (0 + 0)%Q by reflexivity.
    apply Qplus_le_compat; unfold Qle; simpl; lia. }
  destruct H as [-> | (f & Hf & _ & ->)].
  - rewrite split_dot_digits by exact Hi. apply P. constructor.
  - rewrite split_dot_frac by exact Hi. apply P. exact Hf.
Qed.

(** On the charts built from a narrative every year lies between 0 and 9999
    and every value and percentage is non-negative: the patterns take no
    sign, so the line chart shows a figure written with a minus without it. *)
Theorem chart_values_in_range (sv : sort_values) (text : str)
        (charts : list chart) (c : chart) :
  create_charts sv (fst (extract_numerical_data text))
                (snd (extract_numerical_data text)) = Ok charts ->
  In c charts ->
  match c with
  | Scatter x y _ _ _ _ =>
      Forall (fun z => 0 <= z <= 9999)%Z x /\ Forall (fun q => 0 <= q)%Q y
  | Pie _ values _ => Forall (fun q => 0 <= q)%Q values
  end.
Proof.
  intros C H. apply (@create_charts_cases _ _ _ _ _ C) in H.
  destruct H as [[_ ->] | [_ ->]].
  - assert (F : Forall (fun p : Z * Q => (0 <= fst p <= 9999)%Z /\ (0 <= snd p)%Q)
                       (data_frame (fst (extract_numerical_data text)))).
    { apply Forall_forall. intros p Hp. unfold data_frame in Hp.
      apply in_map_iff in Hp. destruct Hp as ([y v] & <- & Hin).
      cbn [extract_numerical_data fst] in Hin. apply findall_in in Hin.
      destruct Hin as (pre & t & rest & g & _ & M & -> & ->).
      apply match_at_sound, sem_line_inv in M.
      destruct M as (y & gap & v & _ & Hy & _ & Hv & ->).
      cbn. split; [apply year_in_range; exact Hy|apply to_float_nonneg; exact Hv]. }
    apply (Permutation_Forall (sort_values_perm sv _)) in F.
    unfold line_chart. split; apply Forall_map;
      (eapply Forall_impl; [|exact F]); intros p [P1 P2]; assumption.
  - apply Forall_map. apply Forall_forall. intros [lbl v] Hin.
    destruct (@pie_entries_shape text lbl v Hin) as (_ & Hv).
    cbn. apply to_float_nonneg. exact Hv.
Qed.

Lemma chart_values_in_range_witness :
  create_charts stable_sort_values
    (fst (extract_numerical_data (s2l "2021 change -5")))
    (snd (extract_numerical_data (s2l "2021 change -5")))
  = Ok [line_chart [(2021%Z, 5%Q)]]
  /\ Forall (fun q => 0 <= q)%Q [5%Q].
Proof.
  assert (C : create_charts stable_sort_values
                (fst (extract_numerical_data (s2l "2021 change -5")))
                (snd (extract_numerical_data (s2l "2021 change -5")))
              = Ok [line_chart [(2021%Z, 5%Q)]])
    by (vm_compute; reflexivity).
  split; [exact C|].
  exact (proj2 (@chart_values_in_range stable_sort_values _ _ _ C
                  (or_introl eq_refl))).
Defined.

(** ** When the charts fail *)





(** ** The frame of the report *)

Lemma headings_of_level_app n d1 d2 :
  headings_of_level n (d1 ++ d2) = headings_of_level n d1 ++ headings_of_level n d2.
Proof. apply flat_map_app. Qed.

Lemma headings_of_level_sections n information :
  n <> 2 -> headings_of_level n (flat_map sector_section information) = [].
Proof.
  intros Hn. induction information as [|item l IH]; [reflexivity|].
  simpl. destruct n as [|[|[|n]]]; try exact IH. contradiction.
Qed.

Lemma headings_of_level_bullets n sources :
  headings_of_level n (map bullet sources) = [].
Proof. induction sources as [|x l IH]; [reflexivity|exact IH]. Qed.

(** Whatever the sectors and sources are, the report has one title, the two
    section headings Location and Sources in this order, the disclaimer as
    its last block, and five blocks besides two per sector and one per
    source; with nothing to report it still has these five. *)
Theorem report_frame (city country : str) (information : list (str * str))
        (sources : list json) :
  let doc := create_docx city country information sources in
  length doc = 5 + 2 * length information + length sources
  /\ headings_of_level 0 doc
     = [s2l "Feasibility Analysis - " ++ city ++ s2l ", " ++ country]
  /\ headings_of_level 1 doc = [s2l "Location"; s2l "Sources"]
  /\ last doc (Heading [] 0) = Paragraph (JStr disclaimer) None.
Proof.
  cbv zeta. rewrite create_docx_blocks. split; [|split; [|split]].
  - rewrite !length_app, length_map. simpl length.
    assert (L : length (flat_map sector_section information)
                = 2 * length information).
    { induction information as [|item l IH]; [reflexivity|]. simpl in *. lia. }
    rewrite L. lia.
  - rewrite !headings_of_level_app, headings_of_level_sections,
      headings_of_level_bullets by discriminate. reflexivity.
  - rewrite !headings_of_level_app, headings_of_level_sections,
      headings_of_level_bullets by discriminate. reflexivity.
  - rewrite !app_assoc. apply last_last.
Qed.

(** ** File names that coincide *)

Lemma underscore_for_space_idem c :
  underscore_for_space (underscore_for_space c) = underscore_for_space c.
Proof.
  unfold underscore_for_space. destruct (Ascii.eqb c SP) eqn:E; [reflexivity|].
  rewrite E. reflexivity.
Qed.

Lemma file_name_eq city country :
  file_name city country
  = s2l "Feasibility_Analysis_" ++ map underscore_for_space city
        ++ s2l "_" ++ map underscore_for_space country ++ s2l ".docx".
Proof. unfold file_name. rewrite !replace_space. reflexivity. Qed.

(** The file name does not tell a space from an underscore, nor where the
    city ends: a name written with underscores gets the file name of the
    one written with spaces, and moving a word from the end of the city to
    the front of the country leaves the file name as it is. *)
Theorem file_names_coincide (city country a b c : str) :
  file_name (map underscore_for_space city) (map underscore_for_space country)
  = file_name city country
  /\ file_name (a ++ [SP] ++ b) c = file_name a (b ++ [SP] ++ c)
  /\ length (file_name city country) = 27 + length city + length country.
Proof.
  rewrite !file_name_eq. split; [|split].
  - rewrite !map_map.
    rewrite (map_ext _ _ underscore_for_space_idem city).
    rewrite (map_ext _ _ underscore_for_space_idem country). reflexivity.
  - rewrite !map_app. simpl map. rewrite <- !app_assoc. reflexivity.
  - rewrite !length_app, !length_map. simpl. lia.
Qed.

(** ** strip *)

Lemma lstrip_stops s : stops is_space (lstrip s).
Proof.
  induction s as [|a s IH]; simpl; [exact I|].
  destruct (is_space a) eqn:E; [exact IH|exact E].
Qed.

Lemma lstrip_split s : exists sp, s = sp ++ lstrip s /\ all is_space sp.
Proof.
  induction s as [|a s (sp & E & H)]; [exists []; split; [reflexivity|constructor]|].
  simpl. destruct (is_space a) eqn:A.
  - exists (a :: sp). split; [simpl; f_equal; exact E|constructor; assumption].
  - exists []. split; [reflexivity|constructor].
Qed.

Lemma lstrip_stop s : stops is_space s -> lstrip s = s.
Proof. destruct s as [|a s]; simpl; intros H; [reflexivity|]. rewrite H. reflexivity. Qed.

Lemma strip_split s :
  exists front back,
    s = front ++ strip s ++ back /\ all is_space front /\ all is_space back.
Proof.
  destruct (lstrip_split s) as (front & E1 & H1).
  destruct (lstrip_split (rev (lstrip s))) as (b & E2 & H2).
  exists front, (rev b). split; [|split; [exact H1|apply all_rev; exact H2]].
  unfold strip. rewrite <- rev_app_distr, <- E2, rev_involutive. exact E1.
Qed.

Lemma strip_ends s :
  stops is_space (strip s) /\ stops is_space (rev (strip s)).
Proof.
  split.
  - destruct (lstrip_split (rev (lstrip s))) as (b & E2 & H2).
    apply (f_equal (@rev ascii)) in E2.
    rewrite rev_involutive, rev_app_distr in E2. fold (strip s) in E2.
    pose proof (lstrip_stops s) as L. rewrite E2 in L.
    destruct (strip s); [exact I|exact L].
  - unfold strip. rewrite rev_involutive. apply lstrip_stops.
Qed.

(** [strip] takes away white space at both ends and nothing else: what is
    left neither starts nor ends with white space, stripping again changes
    nothing, and a text of white space only becomes empty. *)
Theorem strip_removes_outer_space (s : str) :
  (exists front back,
      s = front ++ strip s ++ back /\ all is_space front /\ all is_space back)
  /\ stops is_space (strip s)
  /\ stops is_space (rev (strip s))
  /\ strip (strip s) = strip s
  /\ strip (filter is_space s) = [].
Proof.
  destruct (strip_ends s) as [F B].
  split; [apply strip_split|]. split; [exact F|]. split; [exact B|]. split.
  - unfold strip at 1. rewrite (lstrip_stop _ F), (lstrip_stop _ B).
    apply rev_involutive.
  - assert (H : all is_space (filter is_space s)).
    { apply Forall_forall. intros a Ha. apply filter_In in Ha. apply Ha. }
    assert (L : lstrip (filter is_space s) = []).
    { rewrite <- (app_nil_r (filter is_space s)).
      rewrite lstrip_spaces by exact H. reflexivity. }
    unfold strip. rewrite L. reflexivity.
Qed.

(** ** Reading the answers of the two services *)

(** Of an inference body only the first choice is read: its [text], stripped,
    is the narrative; a first choice without [text] raises KeyError, one
    whose [text] is not a string AttributeError, and an empty list of
    choices IndexError. *)
Theorem response_text_reads_first_choice (fields : list (str * json))
        (rest : list json) :
  response_text (inference_body (JArr (JObj fields :: rest)))
  = match lookup (s2l "text") fields with
    | Some (JStr text) => Ok (strip text)
    | Some _ => Raise AttributeError
    | None => Raise KeyError
    end
  /\ response_text (inference_body (JArr [])) = Raise IndexError.
Proof.
  split; [|reflexivity].
  unfold response_text, inference_body.
  change (getitem (JObj [(s2l "output", JObj [(s2l "choices", JArr (JObj fields :: rest))])])
                  (s2l "output"))
    with (Ok (JObj [(s2l "choices", JArr (JObj fields :: rest))])).
  cbn [rbind].
  change (getitem (JObj [(s2l "choices", JArr (JObj fields :: rest))]) (s2l "choices"))
    with (Ok (JArr (JObj fields :: rest))).
  cbn [rbind getitem0]. unfold getitem.
  destruct (lookup (s2l "text") fields) as [[]|]; reflexivity.
Qed.

Lemma join_strings sep parts : join sep (map JStr parts) = Ok (concat_with sep parts).
Proof.
  induction parts as [|s rest IH]; [reflexivity|].
  destruct rest as [|t rest]; [reflexivity|].
  change (join sep (map JStr (s :: t :: rest)))
    with (rbind (join sep (map JStr (t :: rest))) (fun u => Ok (s ++ sep ++ u))).
  rewrite IH. reflexivity.
Qed.

Lemma fields_of_objects key items values :
  Forall2 (fun d v => lookup key d = Some v) items values ->
  fields key (map JObj items) = Ok values.
Proof.
  induction 1 as [|d v items values H _ IH]; [reflexivity|].
  simpl. rewrite H. cbn [rbind]. rewrite IH. reflexivity.
Qed.

(** Search results that carry a snippet and a link each are passed on in
    their order: the context is the snippets joined by line feeds, the
    sources are the links, one per result, repeats kept. *)
Theorem search_results_pass_through (search_fields : list (str * json))
        (items : list (list (str * json))) (snippets : list str)
        (links : list json) :
  lookup (s2l "organic") search_fields = Some (JArr (map JObj items)) ->
  Forall2 (fun d s => lookup (s2l "snippet") d = Some (JStr s)) items snippets ->
  Forall2 (fun d l => lookup (s2l "link") d = Some l) items links ->
  context_of (JObj search_fields) = Ok (concat_with [NL] snippets)
  /\ sources_of (JObj search_fields) = Ok links
  /\ length links = length items.
Proof.
  intros Ho Hs Hl. unfold context_of, sources_of, get_organic. rewrite Ho.
  cbn [rbind iterate]. split; [|split].
  - assert (H : Forall2 (fun d v => lookup (s2l "snippet") d = Some v)
                        items (map JStr snippets)).
    { clear Hl Ho. induction Hs; simpl; constructor; assumption. }
    rewrite (fields_of_objects _ H). cbn [rbind]. apply join_strings.
  - apply fields_of_objects. exact Hl.
  - symmetry. eapply Forall2_length. exact Hl.
Qed.

Lemma search_results_pass_through_witness :
  let body :=
    [(s2l "organic",
      JArr (map JObj
                [[(s2l "title", JStr (s2l "t")); (s2l "link", JStr (s2l "http://x"));
                  (s2l "snippet", JStr (s2l "a"))];
                 [(s2l "title", JStr (s2l "t")); (s2l "link", JStr (s2l "http://x"));
                  (s2l "snippet", JStr (s2l "b"))]]))] in
  context_of (JObj body) = Ok (s2l "a" ++ [NL] ++ s2l "b")
  /\ sources_of (JObj body) = Ok [JStr (s2l "http://x"); JStr (s2l "http://x")].
Proof.
  cbv zeta.
  destruct (@search_results_pass_through
              [(s2l "organic",
                JArr (map JObj
                          [[(s2l "title", JStr (s2l "t")); (s2l "link", JStr (s2l "http://x"));
                            (s2l "snippet", JStr (s2l "a"))];
                           [(s2l "title", JStr (s2l "t")); (s2l "link", JStr (s2l "http://x"));
                            (s2l "snippet", JStr (s2l "b"))]]))]
              [[(s2l "title", JStr (s2l "t")); (s2l "link", JStr (s2l "http://x"));
                (s2l "snippet", JStr (s2l "a"))];
               [(s2l "title", JStr (s2l "t")); (s2l "link", JStr (s2l "http://x"));
                (s2l "snippet", JStr (s2l "b"))]]
              [s2l "a"; s2l "b"]
              [JStr (s2l "http://x"); JStr (s2l "http://x")]
              eq_refl
              ltac:(repeat constructor) ltac:(repeat constructor))
    as (C & S & _).
  split; [exact C|exact S].
Defined.

Lemma fields_missing key items :
  Exists (fun d => lookup key d = None) items ->
  fields key (map JObj items) = Raise KeyError.
Proof.
  induction 1 as [d items H | d items _ IH]; simpl.
  - rewrite H. reflexivity.
  - destruct (lookup key d); [|reflexivity]. cbn [rbind]. rewrite IH. reflexivity.
Qed.

(** One search result without a snippet ends the action with KeyError right
    after the search request: the inference service is not called and
    nothing is shown. *)
Theorem result_without_snippet_aborts (sv : sort_values) (w : world)
        (c k sel : str) (search_fields : list (str * json))
        (items : list (list (str * json))) :
  (forall h p, respond w search_url h p = Ok (JObj search_fields)) ->
  lookup (s2l "organic") search_fields = Some (JArr (map JObj items)) ->
  Exists (fun d => lookup (s2l "snippet") d = None) items ->
  analysis sv w c k sel
  = ([Post search_url (search_headers w)
           (search_payload (c ++ [SP] ++ k ++ [SP] ++ sel))],
     Raise KeyError).
Proof.
  intros Hr Ho He. rewrite analysis_run. cbv zeta. rewrite Hr.
  unfold context_of, get_organic. rewrite Ho. cbn [rbind iterate].
  rewrite (fields_missing _ He). reflexivity.
Qed.

Lemma result_without_snippet_aborts_witness :
  let body := [(s2l "organic", JArr (map JObj [[(s2l "link", JStr (s2l "http://x"))]]))] in
  Exists (fun d => lookup (s2l "snippet") d = @None json)
         [[(s2l "link", JStr (s2l "http://x"))]]
  /\ network_calls
       (analysis stable_sort_values (sample_world None (JObj body) JNull)
                 (s2l "Lima") (s2l "Peru") (s2l "Tourism")) = 1.
Proof.
  cbv zeta.
  assert (E : Exists (fun d => lookup (s2l "snippet") d = @None json)
                     [[(s2l "link", JStr (s2l "http://x"))]])
    by (left; reflexivity).
  split; [exact E|].
  rewrite (@result_without_snippet_aborts stable_sort_values
             (sample_world None
                (JObj [(s2l "organic",
                        JArr (map JObj [[(s2l "link", JStr (s2l "http://x"))]]))])
                JNull)
             (s2l "Lima") (s2l "Peru") (s2l "Tourism")
             [(s2l "organic", JArr (map JObj [[(s2l "link", JStr (s2l "http://x"))]]))]
             [[(s2l "link", JStr (s2l "http://x"))]]
             (fun _ _ => eq_refl) eq_refl E).
  reflexivity.
Defined.

(** ** What a run of the script can look like *)

Lemma script_cases sv w i :
  (exists msg, script sv w i = ([Warning msg; Stop], Ok tt))
  \/ (button i = false /\ script sv w i = ([], Ok tt))
  \/ (button i = true /\ exists msg, script sv w i = ([Warning msg], Ok tt))
  \/ (button i = true /\ truthy (city i) = true /\ truthy (country i) = true
      /\ script sv w i = analysis sv w (city i) (country i) (effective_sector i)).
Proof.
  unfold script, effective_sector.
  destruct (str_eqb (sector_choice i) custom_option).
  - destruct (truthy (business_idea i)); cbn [negb].
    + destruct (button i); [|right; left; auto].
      destruct (truthy (city i)), (truthy (country i)); cbn [andb];
        try (right; right; left; split; [reflexivity|eexists; reflexivity]).
      right. right. right. auto.
    + left. eexists. reflexivity.
  - destruct (button i); [|right; left; auto].
    destruct (truthy (city i)), (truthy (country i)); cbn [andb];
      try (right; right; left; split; [reflexivity|eexists; reflexivity]).
    destruct (truthy (sector_choice i)).
    + right. right. right. auto.
    + right. right. left. split; [reflexivity|eexists; reflexivity].
Qed.

Lemma analysis_outcomes sv w c k sel :
  (exists e,
      analysis sv w c k sel
      = ([Post search_url (search_headers w)
               (search_payload (c ++ [SP] ++ k ++ [SP] ++ sel))], Raise e))
  \/ (exists e context,
         analysis sv w c k sel
         = ([Post search_url (search_headers w)
                  (search_payload (c ++ [SP] ++ k ++ [SP] ++ sel));
             Post inference_url (inference_headers w)
                  (inference_payload c k sel context)], Raise e))
  \/ (exists search_results context sources response data,
         respond w search_url (search_headers w)
                 (search_payload (c ++ [SP] ++ k ++ [SP] ++ sel))
         = Ok search_results
         /\ context_of search_results = Ok context
         /\ sources_of search_results = Ok sources
         /\ respond w inference_url (inference_headers w)
                    (inference_payload c k sel context) = Ok response
         /\ response_text response = Ok data
         /\ analysis sv w c k sel
            = (narrative_trace w c k sel context data
                 ++ fst (after_narrative sv w c k sel data sources),
               snd (after_narrative sv w c k sel data sources))).
Proof.
  rewrite analysis_run. cbv zeta.
  destruct (respond w search_url _ _) as [sr|e] eqn:R1; [|left; eauto].
  destruct (context_of sr) as [ctx|e] eqn:C; [|left; eauto].
  destruct (sources_of sr) as [srcs|e] eqn:S; [|left; eauto].
  destruct (respond w inference_url _ _) as [resp|e] eqn:R2;
    cbn [rbind]; [|right; left; eauto].
  destruct (response_text resp) as [data|e] eqn:T; [|right; left; eauto].
  right. right. exists sr, ctx, srcs, resp, data.
  repeat (split; [reflexivity || assumption|]).
  unfold after_narrative, full_trace.
  destruct (create_charts sv _ _) as [charts|e].
  - destruct (docx_refuses w _); reflexivity.
  - cbn [fst snd]. rewrite app_nil_r. reflexivity.
Qed.

Lemma filter_plotly (f : event -> bool) charts :
  (forall c, f (PlotlyChart c) = false) ->
  filter f (map PlotlyChart charts) = [].
Proof.
  intros H. induction charts as [|c l IH]; [reflexivity|].
  simpl. rewrite H. exact IH.
Qed.

(** Behind the narrative there is no request and no warning. *)
Lemma after_narrative_filter (f : event -> bool) sv w c k sel data sources :
  (forall x, f (PlotlyChart x) = false) ->
  (forall x, f (Write x) = false) ->
  (forall l d n m, f (DownloadButton l d n m) = false) ->
  filter f (fst (after_narrative sv w c k sel data sources)) = [].
Proof.
  intros H1 H2 H3. unfold after_narrative.
  destruct (create_charts sv _ _) as [charts|e]; [|reflexivity].
  destruct (docx_refuses w _); cbn [fst]; rewrite filter_app, filter_plotly by exact H1;
    cbn [filter app]; rewrite ?H2, ?H3; reflexivity.
Qed.

Lemma request_urls_filter evs (r : result unit) :
  request_urls (evs, r) = request_urls (filter is_post evs, r).
Proof.
  unfold request_urls. cbn [fst].
  induction evs as [|e evs IH]; [reflexivity|].
  destruct e; cbn [filter is_post flat_map]; rewrite IH; reflexivity.
Qed.

Lemma action_posts sv w c k sel context data sources :
  filter is_post (narrative_trace w c k sel context data
                    ++ fst (after_narrative sv w c k sel data sources))
  = [Post search_url (search_headers w)
          (search_payload (c ++ [SP] ++ k ++ [SP] ++ sel));
     Post inference_url (inference_headers w) (inference_payload c k sel context)].
Proof.
  rewrite filter_app, after_narrative_filter by reflexivity. reflexivity.
Qed.

Lemma action_warnings sv w c k sel context data sources :
  filter is_warning (narrative_trace w c k sel context data
                       ++ fst (after_narrative sv w c k sel data sources)) = [].
Proof.
  rewrite filter_app, after_narrative_filter by reflexivity. reflexivity.
Qed.

Lemma action_urls sv w c k sel context data sources r :
  request_urls (narrative_trace w c k sel context data
                  ++ fst (after_narrative sv w c k sel data sources), r)
  = [search_url; inference_url].
Proof. rewrite request_urls_filter, action_posts. reflexivity. Qed.

Lemma action_first_write sv w c k sel context data sources :
  first_write (narrative_trace w c k sel context data
                 ++ fst (after_narrative sv w c k sel data sources))
  = Some data.
Proof. reflexivity. Qed.

(** A run never warns and calls a service: it calls nothing, or the search
    service alone, or the search service and then the inference service,
    and it shows at most one warning. *)
Theorem requests_in_order (sv : sort_values) (w : world) (i : inputs) :
  (request_urls (script sv w i) = []
   \/ request_urls (script sv w i) = [search_url]
   \/ request_urls (script sv w i) = [search_url; inference_url])
  /\ (warnings (script sv w i) = [] \/ network_calls (script sv w i) = 0)
  /\ length (warnings (script sv w i)) <= 1.
Proof.
  destruct (script_cases sv w i)
    as [(msg & E) | [(_ & E) | [(_ & msg & E) | (_ & _ & _ & E)]]];
    rewrite E; try (split; [left; reflexivity|split; [right; reflexivity|simpl; lia]]).
  destruct (analysis_outcomes sv w (city i) (country i) (effective_sector i))
    as [(e & A) | [(e & ctx & A) | (sr & ctx & srcs & resp & data & _ & _ & _ & _ & _ & A)]];
    rewrite A.
  - split; [right; left; reflexivity|split; [left; reflexivity|simpl; lia]].
  - split; [right; right; reflexivity|split; [left; reflexivity|simpl; lia]].
  - unfold warnings. cbn [fst]. rewrite action_urls, action_warnings.
    split; [right; right; reflexivity|split; [left; reflexivity|simpl; lia]].
Qed.

Lemma script_narrative sv w i text :
  narrative_shown (script sv w i) = Some text ->
  button i = true /\ truthy (city i) = true /\ truthy (country i) = true
  /\ exists search_results context sources response,
      respond w search_url (search_headers w) (search_payload (search_query i))
      = Ok search_results
      /\ context_of search_results = Ok context
      /\ sources_of search_results = Ok sources
      /\ respond w inference_url (inference_headers w)
                 (inference_payload (city i) (country i) (effective_sector i) context)
         = Ok response
      /\ response_text response = Ok text
      /\ script sv w i
         = (narrative_trace w (city i) (country i) (effective_sector i) context text
              ++ fst (after_narrative sv w (city i) (country i) (effective_sector i)
                                      text sources),
            snd (after_narrative sv w (city i) (country i) (effective_sector i)
                                 text sources)).
Proof.
  intros H.
  destruct (script_cases sv w i)
    as [(msg & E) | [(_ & E) | [(_ & msg & E) | (B & C & K & E)]]];
    rewrite E in H |- *; try discriminate.
  destruct (analysis_outcomes sv w (city i) (country i) (effective_sector i))
    as [(e' & A) | [(e' & ctx & A) | (sr & ctx & srcs & resp & data & R1 & Cx & Sx & R2 & T & A)]];
    rewrite A in H |- *; try discriminate.
  unfold narrative_shown in H. cbn [fst] in H.
  rewrite action_first_write in H. inversion H; subst data.
  repeat split; auto. exists sr, ctx, srcs, resp. auto 10.
Qed.




(** Without a press of the button no service is called and nothing is
    built: the run is empty, or it is the warning for the missing idea. *)
Theorem no_button_no_request (sv : sort_values) (w : world) (i : inputs) :
  button i = false ->
  (script sv w i = ([], Ok tt)
   \/ exists msg, script sv w i = ([Warning msg; Stop], Ok tt))
  /\ network_calls (script sv w i) = 0.
Proof.
  intros Hb.
  destruct (script_cases sv w i)
    as [(msg & E) | [(_ & E) | [(B & _) | (B & _)]]];
    try congruence; rewrite E.
  - split; [right; eexists; reflexivity|reflexivity].
  - split; [left; reflexivity|reflexivity].
Qed.

Lemma no_button_no_request_witness :
  let i := {| city := s2l "Lima"; country := s2l "Peru";
              sector_choice := s2l "Tourism"; business_idea := [];
              button := false |} in
  button i = false
  /\ network_calls
       (script stable_sort_values
               (sample_world None JNull (inference_body_with (s2l "text"))) i) = 0.
Proof.
  cbv zeta. split; [reflexivity|].
  exact (proj2 (@no_button_no_request stable_sort_values
                  (sample_world None JNull (inference_body_with (s2l "text")))
                  {| city := s2l "Lima"; country := s2l "Peru";
                     sector_choice := s2l "Tourism"; business_idea := [];
                     button := false |} eq_refl)).
Defined.

Lemma create_docx_bullets city country information sources :
  bullets (create_docx city country information sources) = sources.
Proof.
  rewrite create_docx_blocks, !bullets_app, bullets_sections, bullets_bullets.
  unfold bullets. cbn [flat_map app]. apply app_nil_r.
Qed.

Lemma create_docx_sector_headings city country information sources :
  sector_headings (create_docx city country information sources)
  = map fst information.
Proof.
  rewrite create_docx_blocks, !sector_headings_app, sector_headings_sections,
    sector_headings_bullets. unfold sector_headings. cbn [flat_map app].
  apply app_nil_r.
Qed.

Lemma after_narrative_completed sv w c k sel data sources :
  snd (after_narrative sv w c k sel data sources) = Ok tt ->
  exists charts,
    create_charts sv (fst (extract_numerical_data data))
                  (snd (extract_numerical_data data)) = Ok charts
    /\ docx_refuses w (create_docx c k [(sel, data)] sources) = None
    /\ fst (after_narrative sv w c k sel data sources)
       = map PlotlyChart charts
           ++ [Write (s2l "---");
               DownloadButton "Download analysis as DOCX"
                              (create_docx c k [(sel, data)] sources)
                              (file_name c k) docx_mime].
Proof.
  unfold after_narrative.
  destruct (create_charts sv _ _) as [charts|e]; [|discriminate].
  destruct (docx_refuses w _) as [e|]; [discriminate|].
  intros _. exists charts. auto.
Qed.

(** A run that shows a narrative and ends without exception is a completed
    action: the button was pressed with city and country given, both
    services were called, the charts of the narrative are shown, and the run
    ends with the download of a report, which the document library took,
    that has the effective sector as its one sector heading, the narrative
    as its body, the links of the search results as its bullets, and the
    file name of city and country. *)
Theorem completed_run_offers_report (sv : sort_values) (w : world)
        (i : inputs) (text : str) :
  narrative_shown (script sv w i) = Some text ->
  snd (script sv w i) = Ok tt ->
  button i = true
  /\ request_urls (script sv w i) = [search_url; inference_url]
  /\ exists search_results sources doc charts,
      respond w search_url (search_headers w) (search_payload (search_query i))
      = Ok search_results
      /\ sources_of search_results = Ok sources
      /\ create_charts sv (fst (extract_numerical_data text))
                       (snd (extract_numerical_data text)) = Ok charts
      /\ charts_shown (script sv w i) = charts
      /\ docx_refuses w doc = None
      /\ last (fst (script sv w i)) Stop
         = DownloadButton "Download analysis as DOCX" doc
                          (file_name (city i) (country i)) docx_mime
      /\ sector_headings doc = [effective_sector i]
      /\ In (Paragraph (JStr text) None) doc
      /\ bullets doc = sources.
Proof.
  intros H Hok. pose proof (script_charts _ _ _ H) as Hc.
  apply script_narrative in H.
  destruct H as (B & _ & _ & sr & ctx & srcs & resp & R1 & _ & Sx & _ & _ & E).
  rewrite E in Hok |- *. cbn [snd] in Hok.
  destruct (after_narrative_completed _ _ _ _ _ _ _ Hok) as (charts & C & D & T).
  split; [exact B|]. split; [apply action_urls|].
  exists sr, srcs,
    (create_docx (city i) (country i) [(effective_sector i, text)] srcs), charts.
  split; [exact R1|]. split; [exact Sx|]. split; [exact C|].
  split; [rewrite <- E, Hc; unfold charts_from; rewrite C; reflexivity|].
  split; [exact D|]. cbn [fst].
  split; [|split; [apply create_docx_sector_headings|split; [|apply create_docx_bullets]]].
  - rewrite T.
    match goal with
    | |- last (?a ++ ?b ++ [?x; ?y]) _ = _ =>
        change (a ++ b ++ [x; y]) with (a ++ b ++ [x] ++ [y]);
        rewrite !app_assoc
    end.
    apply last_last.
  - rewrite create_docx_blocks. apply in_or_app. right.
    apply in_or_app. left. right. left. reflexivity.
Qed.

Lemma completed_run_offers_report_witness :
  let i := {| city := s2l "Quito"; country := s2l "Ecuador";
              sector_choice := custom_option; business_idea := s2l "Hostel";
              button := true |} in
  let w := sample_world None (JObj []) (inference_body_with (s2l " Good. ")) in
  narrative_shown (script stable_sort_values w i) = Some (s2l "Good.")
  /\ snd (script stable_sort_values w i) = Ok tt
  /\ request_urls (script stable_sort_values w i) = [search_url; inference_url].
Proof.
  cbv zeta.
  assert (H : narrative_shown
                (script stable_sort_values
                   (sample_world None (JObj []) (inference_body_with (s2l " Good. ")))
                   {| city := s2l "Quito"; country := s2l "Ecuador";
                      sector_choice := custom_option; business_idea := s2l "Hostel";
                      button := true |}) = Some (s2l "Good."))
    by (vm_compute; reflexivity).
  assert (K : snd (script stable_sort_values
                     (sample_world None (JObj []) (inference_body_with (s2l " Good. ")))
                     {| city := s2l "Quito"; country := s2l "Ecuador";
                        sector_choice := custom_option; business_idea := s2l "Hostel";
                        button := true |}) = Ok tt)
    by (vm_compute; reflexivity).
  split; [exact H|]. split; [exact K|].
  exact (proj1 (proj2 (@completed_run_offers_report
                         stable_sort_values _ _ _ H K))).
Defined.

Lemma response_text_stripped response text :
  response_text response = Ok text -> exists s, text = strip s.
Proof.
  unfold response_text. intros H.
  destruct (getitem response (s2l "output")) as [output|]; [|discriminate].
  cbn [rbind] in H.
  destruct (getitem output (s2l "choices")) as [choices|]; [|discriminate].
  cbn [rbind] in H.
  destruct (getitem0 choices) as [choice|]; [|discriminate].
  cbn [rbind] in H.
  destruct (getitem choice (s2l "text")) as [t|]; [|discriminate].
  cbn [rbind] in H. destruct t; try discriminate.
  inversion H. eexists. reflexivity.
Qed.

(** The narrative a run shows, and writes into the report, neither starts
    nor ends with white space. *)
Theorem narrative_is_stripped (sv : sort_values) (w : world) (i : inputs)
        (text : str) :
  narrative_shown (script sv w i) = Some text ->
  stops is_space text /\ stops is_space (rev text).
Proof.
  intros H. apply script_narrative in H.
  destruct H as (_ & _ & _ & sr & ctx & srcs & resp & _ & _ & _ & _ & T & _).
  apply response_text_stripped in T. destruct T as (s & ->).
  apply strip_ends.
Qed.

Lemma narrative_is_stripped_witness :
  let i := {| city := s2l "Lima"; country := s2l "Peru";
              sector_choice := s2l "Tourism"; business_idea := [];
              button := true |} in
  let w := sample_world None (JObj []) (inference_body_with (s2l "  Good.  ")) in
  narrative_shown (script stable_sort_values w i) = Some (s2l "Good.")
  /\ stops is_space (s2l "Good.").
Proof.
  cbv zeta.
  assert (H : narrative_shown
                (script stable_sort_values
                   (sample_world None (JObj []) (inference_body_with (s2l "  Good.  ")))
                   {| city := s2l "Lima"; country := s2l "Peru";
                      sector_choice := s2l "Tourism"; business_idea := [];
                      button := true |}) = Some (s2l "Good."))
    by (vm_compute; reflexivity).
  split; [exact H|].
  exact (proj1 (@narrative_is_stripped stable_sort_values _ _ _ H)).
Defined.




(** The handler catches nothing: when the search service fails, or the
    inference service fails after a search that could be read, the action
    ends with that very exception, with nothing shown. *)
Theorem service_failure_propagates (sv : sort_values) (w : world)
        (c k sel : str) (e : exn) :
  respond w search_url (search_headers w)
          (search_payload (c ++ [SP] ++ k ++ [SP] ++ sel)) = Raise e
  \/ (exists search_results context sources,
         respond w search_url (search_headers w)
                 (search_payload (c ++ [SP] ++ k ++ [SP] ++ sel))
         = Ok search_results
         /\ context_of search_results = Ok context
         /\ sources_of search_results = Ok sources
         /\ respond w inference_url (inference_headers w)
                    (inference_payload c k sel context) = Raise e) ->
  snd (analysis sv w c k sel) = Raise e
  /\ shown (analysis sv w c k sel) = [].
Proof.
  intros H. rewrite analysis_run. cbv zeta.
  destruct H as [H | (sr & ctx & srcs & R1 & C & S & R2)].
  - rewrite H. split; reflexivity.
  - rewrite R1, C, S, R2. split; reflexivity.
Qed.

Lemma service_failure_propagates_witness :
  let w := {| TOGETHER_API_KEY := None; SERPER_API_KEY := None;
              respond := fun _ _ _ => Raise RequestError;
              docx_refuses := fun _ => None |} in
  respond w search_url (search_headers w)
          (search_payload (s2l "Lima" ++ [SP] ++ s2l "Peru" ++ [SP] ++ s2l "Tourism"))
  = Raise RequestError
  /\ snd (analysis stable_sort_values w (s2l "Lima") (s2l "Peru") (s2l "Tourism"))
     = Raise RequestError.
Proof.
  cbv zeta. split; [reflexivity|].
  exact (proj1 (@service_failure_propagates stable_sort_values
                  {| TOGETHER_API_KEY := None; SERPER_API_KEY := None;
                     respond := fun _ _ _ => Raise RequestError;
                     docx_refuses := fun _ => None |}
                  (s2l "Lima") (s2l "Peru") (s2l "Tourism") RequestError
                  (or_introl eq_refl))).
Defined.
